(** * ollama_convo: the multi-agent chat layer, embedded in Rocq

    Source files: [src/multi_agent_chat.py] and [src/chat_with_model.py].

    Python strings are sequences of Unicode code points; they are modelled as
    lists of code points ([N]).  Dictionaries read from YAML keep their
    insertion order, so they are association lists; the agent registry, which
    is only looked up and updated by key, is a [gmap]. *)

From Stdlib Require Import NArith QArith.
From Stdlib Require Import Strings.String Strings.Ascii.
From stdpp Require Import base option list gmap.
From Equations Require Import Equations.

Set Default Proof Using "Type".
Set Warnings "-register-all".
Local Open Scope nat_scope.

(** ** Python strings *)

Module PyStr.

Abbreviation char := N (only parsing).
Abbreviation pystr := (list N) (only parsing).

(** An ASCII literal of the source, as a Python string. *)
Definition py (s : string) : pystr :=
  map N_of_ascii (list_ascii_of_string s).

(** [str.isspace] on one code point: the table CPython uses for
    [str.strip()] without arguments. *)
Definition isspace (c : char) : bool :=
  ((9 <=? c) && (c <=? 13) || (28 <=? c) && (c <=? 32)
   || (c =? 133) || (c =? 160) || (c =? 5760)
   || (8192 <=? c) && (c <=? 8202)
   || (c =? 8232) || (c =? 8233) || (c =? 8239) || (c =? 8287)
   || (c =? 12288))%N.

Fixpoint lstrip (s : pystr) : pystr :=
  match s with
  | [] => []
  | c :: s' => if isspace c then lstrip s' else s
  end.

Definition rstrip (s : pystr) : pystr := rev (lstrip (rev s)).

(** [s.strip()] *)
Definition strip (s : pystr) : pystr := rstrip (lstrip s).

(** [s.startswith(p)], returning what follows the prefix. *)
Fixpoint strip_prefix (p s : pystr) : option pystr :=
  match p, s with
  | [], _ => Some s
  | _ :: _, [] => None
  | a :: p', b :: s' => if (a =? b)%N then strip_prefix p' s' else None
  end.

(** The text after the first occurrence of [p] in [s], if there is one.
    This is how a lazy [.*?] followed by the literal [p] matches under
    [re.DOTALL]: try [p] here, otherwise let the dot take one more
    character (any character) and try again. *)
Fixpoint find_after (p s : pystr) : option pystr :=
  match strip_prefix p s with
  | Some r => Some r
  | None => match s with
            | [] => None
            | _ :: s' => find_after p s'
            end
  end.

(** [p in s] *)
Definition contains (p s : pystr) : bool :=
  match find_after p s with Some _ => true | None => false end.

End PyStr.
Export PyStr.

(** ** The response sanitizer: [Agent.get_clean_response] *)

Definition think_open : pystr := py "<think>".
Definition think_close : pystr := py "</think>".

(** One match attempt of [<think>.*?</think>] anchored at the start of [s];
    the result is the text after the match. *)
Definition think_match (s : pystr) : option pystr :=
  match strip_prefix think_open s with
  | Some body => find_after think_close body
  | None => None
  end.

Lemma strip_prefix_length p s r :
  strip_prefix p s = Some r → length s = length p + length r.
Proof.
  revert s; induction p as [|a p IH]; intros [|b s]; simpl; try done.
  - by intros [= <-].
  - by intros [= <-].
  - destruct (a =? b)%N; [|done]. intros H%IH. lia.
Qed.

Lemma find_after_length p s r :
  find_after p s = Some r → length p + length r ≤ length s.
Proof.
  revert r; induction s as [|b s IH]; intros r; simpl.
  - destruct (strip_prefix p []) eqn:E; [|done].
    intros [= <-]. apply strip_prefix_length in E. simpl in E. lia.
  - destruct (strip_prefix p (b :: s)) eqn:E.
    + intros [= <-]. apply strip_prefix_length in E. simpl in E. lia.
    + intros H%IH. lia.
Qed.

Lemma think_match_shorter s r :
  think_match s = Some r → length r < length s.
Proof.
  unfold think_match. destruct (strip_prefix think_open s) as [body|] eqn:E; [|done].
  intros H%find_after_length. apply strip_prefix_length in E.
  change (length think_open) with 7 in E. lia.
Qed.

(** Remember the equation when matching on a computed value. *)
Definition inspect {A} (a : A) : {b : A | a = b} := exist _ a eq_refl.

(** [re.sub(r'<think>.*?</think>', '', s, flags=re.DOTALL)]: scan from the
    left; where the pattern matches, drop the match and go on after it;
    where it does not, keep the character and go on with the next one. *)
Equations re_sub (s : pystr) : pystr by wf (length s) lt :=
  re_sub [] := [];
  re_sub (c :: s') with inspect (think_match (c :: s')) := {
    | exist _ (Some r) Hm => re_sub r;
    | exist _ None _ => c :: re_sub s' }.
Next Obligation. by apply think_match_shorter in Hm. Qed.

Definition get_clean_response (response : pystr) : pystr :=
  let clean_response := re_sub response in
  strip clean_response.

(** There is a complete span somewhere in [s]: the pattern matches at some
    position. *)
Fixpoint has_span (s : pystr) : bool :=
  match think_match s with
  | Some _ => true
  | None => match s with
            | [] => false
            | _ :: s' => has_span s'
            end
  end.

(** ** Python values, exceptions and the effects the code uses *)

(** What [yaml.safe_load] can return, as far as this program looks at it.
    Mappings keep the order of the document. *)
Inductive pyval :=
  | VNone
  | VBool (b : bool)
  | VInt (z : Z)
  | VFloat (q : Q)
  | VStr (s : pystr)
  | VList (l : list pyval)
  | VDict (d : list (pystr * pyval)).

Definition type_name (v : pyval) : pystr :=
  match v with
  | VNone => py "NoneType"
  | VBool _ => py "bool"
  | VInt _ => py "int"
  | VFloat _ => py "float"
  | VStr _ => py "str"
  | VList _ => py "list"
  | VDict _ => py "dict"
  end.

Inductive exn_class :=
  KeyError | TypeError | AttributeError | OSError | YAMLError | RuntimeFailure.

(** An exception below [Exception]: its class and [str(e)]. *)
Record exn := Exn { exn_kind : exn_class; exn_str : pystr }.

Definition nl : pystr := [10%N].
Definition quote (s : pystr) : pystr := py "'" ++ s ++ py "'".

(** [c.isprintable()] for a character below U+0100: the controls, U+007F to
    U+00A0 and the soft hyphen U+00AD are not printable.  Above U+00FF the
    answer follows the Unicode tables of the interpreter, which are not
    part of this development. *)
Definition isprintable (c : N) : bool :=
  negb ((c <? 32) || ((127 <=? c) && (c <=? 160)) || (c =? 173))%N.

Definition hex_digit (n : N) : N := if (n <? 10)%N then (48 + n)%N else (87 + n)%N.

(** [repr(s)] of a string: in single quotes, or in double quotes when [s]
    has a single quote and no double quote; the quote and the backslash are
    escaped, and so are the characters that are not printable. *)
Definition repr_char (q c : N) : pystr :=
  if ((c =? q) || (c =? 92))%N then [92%N; c]
  else if (c =? 9)%N then [92%N; 116%N]
  else if (c =? 10)%N then [92%N; 110%N]
  else if (c =? 13)%N then [92%N; 114%N]
  else if isprintable c then [c]
  else [92%N; 120%N; hex_digit (c / 16); hex_digit (c mod 16)].

Definition py_repr (s : pystr) : pystr :=
  let q := if existsb (N.eqb 39) s && negb (existsb (N.eqb 34) s) then 34%N else 39%N in
  q :: concat (repr_char q <$> s) ++ [q].

Fixpoint assoc (k : pystr) (d : list (pystr * pyval)) : option pyval :=
  match d with
  | [] => None
  | (k', v) :: d' => if decide (k = k') then Some v else assoc k d'
  end.

(** [v.get(k, default)] *)
Definition py_get (v : pyval) (k : pystr) (dflt : pyval) : exn + pyval :=
  match v with
  | VDict d => inr (default dflt (assoc k d))
  | _ => inl (Exn AttributeError
                (quote (type_name v) ++ py " object has no attribute 'get'"))
  end.

(** [v[k]] with a string key; [str(KeyError(k))] is [repr(k)]. *)
Definition py_getitem (v : pyval) (k : pystr) : exn + pyval :=
  match v with
  | VDict d => match assoc k d with
               | Some x => inr x
               | None => inl (Exn KeyError (py_repr k))
               end
  | VStr _ => inl (Exn TypeError (py "string indices must be integers, not 'str'"))
  | VList _ =>
      inl (Exn TypeError (py "list indices must be integers or slices, not str"))
  | _ => inl (Exn TypeError (quote (type_name v) ++ py " object is not subscriptable"))
  end.

(** [v.items()] *)
Definition py_items (v : pyval) : exn + list (pystr * pyval) :=
  match v with
  | VDict d => inr d
  | _ => inl (Exn AttributeError
                (quote (type_name v) ++ py " object has no attribute 'items'"))
  end.

(** Code that mutates an object of type [X], writes to standard output and
    may raise: a state and error monad.  The state survives a raise, as the
    mutations made before a Python exception do. *)
Module Eff.

Definition Py (X A : Type) : Type := X * list pystr → (exn + A) * (X * list pystr).

Definition ret {X A} (a : A) : Py X A := λ st, (inr a, st).

Definition bind {X A B} (m : Py X A) (k : A → Py X B) : Py X B :=
  λ st, match m st with
        | (inr a, st') => k a st'
        | (inl e, st') => (inl e, st')
        end.

Definition raise {X A} (e : exn) : Py X A := λ st, (inl e, st).

(** [try: body except Exception as e: handler(e)] *)
Definition try_except {X A} (body : Py X A) (handler : exn → Py X A) : Py X A :=
  λ st, match body st with
        | (inr a, st') => (inr a, st')
        | (inl e, st') => handler e st'
        end.

Definition lift {X A} (r : exn + A) : Py X A := λ st, (r, st).
Definition get {X} : Py X X := λ st, (inr st.1, st).
Definition modify {X} (f : X → X) : Py X unit := λ st, (inr tt, (f st.1, st.2)).

(** One [print] call; [text] includes the [end] that was written. *)
Definition print {X} (text : pystr) : Py X unit :=
  λ st, (inr tt, (st.1, st.2 ++ [text])).

End Eff.
Import Eff.

(** stdpp's [x ← m; k] and [m;; k] notations for this monad. *)
#[global] Instance Py_ret {X} : MRet (Py X) := λ A, ret.
#[global] Instance Py_bind {X} : MBind (Py X) := λ A B k m, bind m k.

(** ** Agents *)

(** One entry of a conversation history: [{'role': ..., 'content': ...}]. *)
Record Message := { role : pystr; content : pystr }.

Record Agent := {
  name : pystr;
  model_name : pyval;
  system_prompt : pyval;
  conversation_history : list Message
}.

(** [Agent.__init__] *)
Definition new_agent (name : pystr) (model_name system_prompt : pyval) : Agent :=
  {| name := name; model_name := model_name; system_prompt := system_prompt;
     conversation_history := [] |}.

(** [Agent.add_message], on the agent itself. *)
Definition append_message (role content : pystr) (self : Agent) : Agent :=
  {| name := name self; model_name := model_name self;
     system_prompt := system_prompt self;
     conversation_history :=
       conversation_history self ++ [{| role := role; content := content |}] |}.

Definition add_message (role content : pystr) : Py Agent unit :=
  modify (append_message role content).

(** *** The model runtime ([ollama.chat]) *)

(** The keyword arguments of one [ollama.chat] call. *)
Record ChatRequest := {
  req_model : pyval;
  req_messages : list Message;
  req_stream : pyval;
  req_temperature : pyval
}.

(** What the caller's [for chunk in stream] loop observes: the call itself
    raises, or it returns something whose iteration yields chunks with the
    given [chunk['message']['content']] and then ends, normally or with an
    exception (an interrupted stream, or a chunk that is not subscriptable).
    The second case with no chunk covers a non-streaming reply, whose
    iteration does not yield chunk dictionaries. *)
Inductive ChatOutcome :=
  | ChatRaises (e : exn)
  | ChatStream (chunks : list pystr) (interrupted : option exn).

Definition Runtime := ChatRequest → ChatOutcome.

Definition ollama_chat {X} (rt : Runtime) (req : ChatRequest)
  : Py X (list pystr * option exn) :=
  match rt req with
  | ChatRaises e => raise e
  | ChatStream chunks e => ret (chunks, e)
  end.

Definition default_temperature : pyval := VFloat (7 # 10).

(** The [for chunk in stream] loop of [stream_chat]: accumulate and print. *)
Fixpoint consume_stream {X} (chunks : list pystr) (interrupted : option exn)
    (full_response : pystr) : Py X pystr :=
  match chunks with
  | [] => match interrupted with
          | None => ret full_response
          | Some e => raise e
          end
  | content :: rest =>
      print content;;
      consume_stream rest interrupted (full_response ++ content)
  end.

Definition stream_chat_request (self : Agent) (temperature : pyval) : ChatRequest :=
  {| req_model := model_name self;
     req_messages := conversation_history self;
     req_stream := VBool true;
     req_temperature := temperature |}.

(** The [try] block of [Agent.stream_chat]. *)
Definition stream_chat_body (rt : Runtime) (message : pystr) (chat_settings : pyval)
  : Py Agent unit :=
  add_message (py "user") message;;
  self ← get;
  print (nl ++ name self ++ py ": ");;
  temperature ← lift (py_get chat_settings (py "temperature") default_temperature);
  stream ← ollama_chat rt (stream_chat_request self temperature);
  full_response ← consume_stream stream.1 stream.2 [];
  let clean_response := get_clean_response full_response in
  add_message (py "assistant") clean_response;;
  print nl.

(** [Agent.stream_chat] *)
Definition stream_chat (rt : Runtime) (message : pystr) (chat_settings : pyval)
  : Py Agent unit :=
  try_except (stream_chat_body rt message chat_settings)
    (λ e, self ← get;
          print (py "Error from " ++ name self ++ py ": " ++ exn_str e ++ nl)).

(** *** A sequence of turns of one agent *)

(** One [stream_chat] call: what the runtime does during it, and the
    arguments. *)
Record Call := {
  call_runtime : Runtime;
  call_message : pystr;
  call_settings : pyval
}.

Definition converse (c : Call) : Py Agent unit :=
  stream_chat (call_runtime c) (call_message c) (call_settings c).

(** The call succeeds: its [try] block runs to the end. *)
Definition converse_succeeds (c : Call) (st : Agent * list pystr) : bool :=
  match (stream_chat_body (call_runtime c) (call_message c) (call_settings c) st).1 with
  | inr _ => true
  | inl _ => false
  end.

Fixpoint converse_all (calls : list Call) : Py Agent unit :=
  match calls with
  | [] => ret tt
  | c :: calls' => converse c;; converse_all calls'
  end.

Fixpoint all_succeed (calls : list Call) (st : Agent * list pystr) : bool :=
  match calls with
  | [] => true
  | c :: calls' => converse_succeeds c st && all_succeed calls' (converse c st).2
  end.

(** [n] times user, assistant. *)
Fixpoint turn_roles (n : nat) : list pystr :=
  match n with
  | 0 => []
  | S n' => py "user" :: py "assistant" :: turn_roles n'
  end.

(** *** The single-agent script: [chat_with_model] *)

Definition chat_with_model_request (model_name message : pystr) (chat_settings : pyval)
  : exn + ChatRequest :=
  match py_get chat_settings (py "stream") (VBool true) with
  | inl e => inl e
  | inr stream =>
      match py_get chat_settings (py "temperature") default_temperature with
      | inl e => inl e
      | inr temperature =>
          inr {| req_model := VStr model_name;
                 req_messages := [{| role := py "user"; content := message |}];
                 req_stream := stream;
                 req_temperature := temperature |}
      end
  end.

Fixpoint print_stream {X} (chunks : list pystr) (interrupted : option exn)
  : Py X unit :=
  match chunks with
  | [] => match interrupted with
          | None => ret tt
          | Some e => raise e
          end
  | content :: rest => print content;; print_stream rest interrupted
  end.

(** [chat_with_model] of [chat_with_model.py] *)
Definition chat_with_model (rt : Runtime) (model_name message : pystr)
    (chat_settings : pyval) : Py unit unit :=
  try_except
    (req ← lift (chat_with_model_request model_name message chat_settings);
     stream ← ollama_chat rt req;
     print (nl ++ py "Model response:" ++ nl);;
     print_stream stream.1 stream.2;;
     print (nl ++ nl))
    (λ e, print (py "An error occurred: " ++ exn_str e ++ nl)).

(** ** The orchestrator: [MultiAgentChat] *)

(** The model runtime's [ollama.create]: the keyword arguments in, an
    exception or nothing out. *)
Definition CreateRuntime := pyval → pyval → pyval → option exn.

Record MultiAgentChat := {
  config : pyval;
  agents : gmap pystr Agent
}.

(** [ThreadPoolExecutor(max_workers=10)] *)
Definition max_workers : nat := 10.

(** [load_config]: [file] is what [open] and [yaml.safe_load] give. *)
Definition load_config (file : exn + pyval) : Py unit pyval :=
  try_except (lift file)
    (λ e, print (py "Error loading config: " ++ exn_str e ++ nl);; ret (VDict [])).

(** The [try] block of the loop body of [setup_agents]. *)
Definition setup_agent_body (create : CreateRuntime) (model_key : pystr)
    (model_config : pyval) : Py (gmap pystr Agent) unit :=
  custom_name ← lift (py_getitem model_config (py "custom_name"));
  base_model ← lift (py_getitem model_config (py "base_model"));
  system ← lift (py_getitem model_config (py "system_prompt"));
  match create custom_name base_model system with
  | Some e => raise e
  | None =>
      custom_name' ← lift (py_getitem model_config (py "custom_name"));
      system' ← lift (py_getitem model_config (py "system_prompt"));
      let agent := new_agent model_key custom_name' system' in
      modify (λ agents : gmap pystr Agent, <[model_key := agent]> agents);;
      print (py "Created agent: " ++ model_key ++ nl)
  end.

Fixpoint setup_agents_loop (create : CreateRuntime) (items : list (pystr * pyval))
  : Py (gmap pystr Agent) unit :=
  match items with
  | [] => ret tt
  | (model_key, model_config) :: rest =>
      try_except (setup_agent_body create model_key model_config)
        (λ e, print (py "Error creating agent " ++ model_key ++ py ": "
                     ++ exn_str e ++ nl));;
      setup_agents_loop create rest
  end.

(** [MultiAgentChat.setup_agents]: the subscript and [.items()] are outside
    of any [try]. *)
Definition setup_agents (create : CreateRuntime) (config : pyval)
  : Py (gmap pystr Agent) unit :=
  models ← lift (py_getitem config (py "models"));
  items ← lift (py_items models);
  setup_agents_loop create items.

(** [MultiAgentChat.__init__]: the object, or the exception that leaves the
    constructor; the text printed on the way. *)
Definition MultiAgentChat_init (create : CreateRuntime) (file : exn + pyval)
  : (exn + MultiAgentChat) * list pystr :=
  match load_config file (tt, []) with
  | (inl e, (_, out)) => (inl e, out)
  | (inr config, (_, out)) =>
      match setup_agents create config (∅, out) with
      | (inl e, (_, out')) => (inl e, out')
      | (inr _, (agents, out')) => (inr {| config := config; agents := agents |}, out')
      end
  end.

(** How [main] gets to its chat loop, or does not. *)
Inductive Startup :=
  | Uncaught (e : exn)
  | SysExit (code : Z)
  | Ready (chat_system : MultiAgentChat).

(** [main], through its [if not chat_system.agents] test. *)
Definition main_startup (create : CreateRuntime) (file : exn + pyval)
  : Startup * list pystr :=
  match MultiAgentChat_init create file with
  | (inl e, out) => (Uncaught e, out)
  | (inr chat_system, out) =>
      if decide (agents chat_system = ∅)
      then (SysExit 1, out ++ [py "No agents available. Exiting." ++ nl])
      else (Ready chat_system, out)
  end.

(** *** [chat_with_agents] and the worker pool

    The main thread walks [agent_names] and submits one task per registered
    name, then waits for the futures in submission order.  The pool starts
    queued tasks first-in first-out while fewer than [max_workers] are
    running.  A running task is [stream_agent_response], that is
    [Agent.stream_chat], cut at the points where another thread can run:
    before the runtime is called, between two chunks, and at the end of the
    stream. *)

Inductive stage :=
  | Queued
  | Streaming (full_response : pystr) (chunks : list pystr) (interrupted : option exn)
  | Finished.

(** A submitted task and its future. *)
Record Future := { fut_agent : pystr; fut_stage : stage }.

Inductive thread := MainThread | WorkerThread (task : nat).

#[global] Instance thread_eq_dec : EqDecision thread.
Proof. solve_decision. Defined.

Inductive main_pc :=
  | Entry
  | Submitting (todo : list pystr)
  | Joining (i : nat)
  | Returned.

#[global] Instance main_pc_eq_dec : EqDecision main_pc.
Proof. solve_decision. Defined.

(** The state of one [chat_with_agents] call: the agents (shared by all
    threads), what has been written to standard output, each text with the
    thread that wrote it, the futures in submission order, and where the
    main thread is. *)
Record Dispatch := {
  registry : gmap pystr Agent;
  stdout : list (thread * pystr);
  futures : list Future;
  pc : main_pc
}.

Definition chat_settings_of (config : pyval) : exn + pyval :=
  py_get config (py "chat_settings") (VDict []).

(** The [except] clause of [stream_chat]. *)
Definition report_error (e : exn) : Py Agent unit :=
  self ← get;
  print (py "Error from " ++ name self ++ py ": " ++ exn_str e ++ nl).

(** The first piece of [stream_chat] in a worker: up to the point where the
    runtime has answered. *)
Definition task_start (outcome : ChatOutcome) (message : pystr) (chat_settings : pyval)
  : Py Agent stage :=
  try_except
    (add_message (py "user") message;;
     self ← get;
     print (nl ++ name self ++ py ": ");;
     temperature ← lift (py_get chat_settings (py "temperature") default_temperature);
     stream ← ollama_chat (λ _, outcome) (stream_chat_request self temperature);
     ret (Streaming [] stream.1 stream.2))
    (λ e, report_error e;; ret Finished).

(** A later piece: one chunk of the loop, or what follows the loop. *)
Definition task_continue (st : stage) : Py Agent stage :=
  match st with
  | Streaming full_response (content :: rest) interrupted =>
      print content;;
      ret (Streaming (full_response ++ content) rest interrupted)
  | Streaming full_response [] (Some e) => report_error e;; ret Finished
  | Streaming full_response [] None =>
      add_message (py "assistant") (get_clean_response full_response);;
      print nl;;
      ret Finished
  | Queued => ret Queued
  | Finished => ret Finished
  end.

(** [n] later pieces in a row, with no other thread in between. *)
Fixpoint task_run (n : nat) (st : stage) : Py Agent stage :=
  match n with
  | 0 => ret st
  | S n' => st' ← task_continue st; task_run n' st'
  end.

Definition is_queued (f : Future) : bool :=
  match fut_stage f with Queued => true | _ => false end.
Definition is_running (f : Future) : bool :=
  match fut_stage f with Streaming _ _ _ => true | _ => false end.
Definition is_finished (f : Future) : bool :=
  match fut_stage f with Finished => true | _ => false end.

(** Index of the first queued task. *)
Fixpoint first_queued (fs : list Future) : option nat :=
  match fs with
  | [] => None
  | f :: fs' => if is_queued f then Some 0 else S <$> first_queued fs'
  end.

Definition running (fs : list Future) : nat := length (filter (λ f, is_running f = true) fs).

(** What the scheduler and the runtime decide. *)
Inductive action :=
  | MainStep
  | WorkerStart (outcome : ChatOutcome)
  | WorkerStep (task : nat).

Section dispatch.
Variables (message : pystr) (chat_settings : pyval) (agent_names : list pystr).

Definition main_step (s : Dispatch) : option Dispatch :=
  match pc s with
  | Entry =>
      Some {| registry := registry s;
              stdout := stdout s ++ [(MainThread, nl ++ py "Responses:" ++ nl)];
              futures := futures s;
              pc := Submitting agent_names |}
  | Submitting [] =>
      Some {| registry := registry s; stdout := stdout s; futures := futures s;
              pc := Joining 0 |}
  | Submitting (agent_name :: todo) =>
      match registry s !! agent_name with
      | Some agent =>
          Some {| registry := registry s; stdout := stdout s;
                  futures := futures s
                             ++ [{| fut_agent := agent_name; fut_stage := Queued |}];
                  pc := Submitting todo |}
      | None =>
          Some {| registry := registry s;
                  stdout := stdout s
                    ++ [(MainThread, nl ++ agent_name ++ py ": Agent not found" ++ nl)];
                  futures := futures s;
                  pc := Submitting todo |}
      end
  | Joining i =>
      match futures s !! i with
      | Some f => if is_finished f
                  then Some {| registry := registry s; stdout := stdout s;
                               futures := futures s; pc := Joining (S i) |}
                  else None
      | None => Some {| registry := registry s; stdout := stdout s;
                        futures := futures s; pc := Returned |}
      end
  | Returned => None
  end.

(** Task [j] runs [piece] on its agent. *)
Definition worker_step (piece : stage → Py Agent stage) (j : nat) (s : Dispatch)
  : option Dispatch :=
  f ← futures s !! j;
  agent ← registry s !! fut_agent f;
  match piece (fut_stage f) (agent, []) with
  | (inr st', (agent', out)) =>
      Some {| registry := <[fut_agent f := agent']> (registry s);
              stdout := stdout s ++ map (pair (WorkerThread j)) out;
              futures := <[j := {| fut_agent := fut_agent f; fut_stage := st' |}]>
                           (futures s);
              pc := pc s |}
  | (inl _, _) => None
  end.

Definition exec (a : action) (s : Dispatch) : option Dispatch :=
  match a with
  | MainStep => main_step s
  | WorkerStart outcome =>
      j ← first_queued (futures s);
      if decide (running (futures s) < max_workers)
      then worker_step (λ _, task_start outcome message chat_settings) j s
      else None
  | WorkerStep j =>
      f ← futures s !! j;
      if is_running f then worker_step task_continue j s else None
  end.

Fixpoint run (schedule : list action) (s : Dispatch) : option Dispatch :=
  match schedule with
  | [] => Some s
  | a :: schedule' => s' ← exec a s; run schedule' s'
  end.
End dispatch.

(** [chat_with_agents] is entered with an idle pool. *)
Definition enter (self : MultiAgentChat) : Dispatch :=
  {| registry := agents self; stdout := []; futures := []; pc := Entry |}.

(** The executions of [self.chat_with_agents(message, agent_names)]. *)
Definition chat_with_agents (self : MultiAgentChat) (message : pystr)
    (agent_names : list pystr) (schedule : list action) : option Dispatch :=
  match chat_settings_of (config self) with
  | inr chat_settings => run message chat_settings agent_names schedule (enter self)
  | inl _ => None
  end.

(** The names of [agent_names] that are in the registry, and the others. *)
Definition known (reg : gmap pystr Agent) (agent_names : list pystr) : list pystr :=
  filter (λ agent_name, is_Some (reg !! agent_name)) agent_names.
Definition unknown (reg : gmap pystr Agent) (agent_names : list pystr) : list pystr :=
  filter (λ agent_name, reg !! agent_name = None) agent_names.

Definition responses_line : pystr := nl ++ py "Responses:" ++ nl.

(** The agents of the submitted tasks, in submission order. *)
Definition submitted (s : Dispatch) : list pystr := fut_agent <$> futures s.

Definition not_found_line (agent_name : pystr) : pystr :=
  nl ++ agent_name ++ py ": Agent not found" ++ nl.

(** What the main thread has printed. *)
Definition main_output (s : Dispatch) : list pystr :=
  snd <$> filter (λ x, x.1 = MainThread) (stdout s).

(** The tasks submitted for the agent [k]. *)
Definition invocations (k : pystr) (s : Dispatch) : list Future :=
  filter (λ f, fut_agent f = k) (futures s).

(** The steps that are left at most before the call returns when every
    queued task fails at once: a measure for the progress of a dispatch. *)
Definition task_weight (f : Future) : nat :=
  match fut_stage f with
  | Queued => 1
  | Streaming _ chunks _ => S (length chunks)
  | Finished => 0
  end.

Definition main_weight (agent_names : list pystr) (s : Dispatch) : nat :=
  match pc s with
  | Entry => 3 * length agent_names + 3
  | Submitting todo => 3 * length todo + length (futures s) + 2
  | Joining i => length (futures s) - i + 1
  | Returned => 0
  end.

Definition work_left (agent_names : list pystr) (s : Dispatch) : nat :=
  main_weight agent_names s + sum_list_with task_weight (futures s).

(** ** Notions used in the statements *)

(** No occurrence of [p] begins in a text that is followed by [w]. *)
Definition no_overlap (p w : pystr) : Prop :=
  ∀ k, 0 < k < length p → strip_prefix (drop k p) w = None.

(** A text that starts with a character that is not whitespace. *)
Definition starts_solid (m : pystr) : Prop :=
  match m with c :: _ => isspace c = false | [] => False end.
Definition ends_solid (m : pystr) : Prop := starts_solid (rev m).

(** The two lines [stream_chat] prints around a turn. *)
Definition name_line (self : Agent) : pystr := nl ++ name self ++ py ": ".
Definition error_line (self : Agent) (e : exn) : pystr :=
  py "Error from " ++ name self ++ py ": " ++ exn_str e ++ nl.

(** What a turn prints from the stream, and how its [try] block ends: with
    the full response, or with the exception that the settings lookup, the
    runtime call or the stream raised. *)
Definition turn_result (rt : Runtime) (message : pystr) (chat_settings : pyval)
    (self : Agent) : list pystr * (exn + pystr) :=
  let self1 := append_message (py "user") message self in
  match py_get chat_settings (py "temperature") default_temperature with
  | inl e => ([], inl e)
  | inr temperature =>
      match rt (stream_chat_request self1 temperature) with
      | ChatRaises e => ([], inl e)
      | ChatStream chunks (Some e) => (chunks, inl e)
      | ChatStream chunks None => (chunks, inr (concat chunks))
      end
  end.

(** The pieces of a task never raise, and they only append to the
    history of the agent they run on. *)
Definition appends (piece : Py Agent stage) : Prop :=
  ∀ agent, ∃ st' agent' out,
    piece (agent, []) = (inr st', (agent', out))
    ∧ name agent' = name agent
    ∧ conversation_history agent `prefix_of` conversation_history agent'.

(** Every step of a worker has this shape. *)
Definition worker_moves (j : nat) (s s' : Dispatch) : Prop :=
  ∃ f agent st' agent' out,
    futures s !! j = Some f
    ∧ is_finished f = false
    ∧ registry s !! fut_agent f = Some agent
    ∧ name agent' = name agent
    ∧ conversation_history agent `prefix_of` conversation_history agent'
    ∧ s' = {| registry := <[fut_agent f := agent']> (registry s);
              stdout := stdout s ++ map (pair (WorkerThread j)) out;
              futures := <[j := {| fut_agent := fut_agent f; fut_stage := st' |}]>
                           (futures s);
              pc := pc s |}.

(** What holds of a dispatch at each point of the main thread. *)
Definition dispatch_inv (reg0 : gmap pystr Agent) (names : list pystr)
    (s : Dispatch) : Prop :=
  (∀ k, is_Some (registry s !! k) ↔ is_Some (reg0 !! k))
  ∧ match pc s with
    | Entry => futures s = [] ∧ main_output s = []
    | Submitting todo =>
        ∃ seen, names = seen ++ todo
                ∧ submitted s = known reg0 seen
                ∧ main_output s = responses_line :: (not_found_line <$> unknown reg0 seen)
    | Joining i =>
        submitted s = known reg0 names
        ∧ main_output s = responses_line :: (not_found_line <$> unknown reg0 names)
        ∧ ∀ j f, j < i → futures s !! j = Some f → is_finished f = true
    | Returned =>
        submitted s = known reg0 names
        ∧ main_output s = responses_line :: (not_found_line <$> unknown reg0 names)
        ∧ ∀ j f, futures s !! j = Some f → is_finished f = true
    end.

(** The loaded configuration is a mapping without a ['models'] key. *)
Definition no_models_key (config : pyval) : Prop :=
  ∃ d, config = VDict d ∧ assoc (py "models") d = None.

(** ** Example data *)

(** Two runtimes for the examples: one that answers every request with the
    given chunks, and one that answers with the streaming flag it was
    asked with. *)
Definition answers (chunks : list pystr) : Runtime := λ _, ChatStream chunks None.
Definition echo_stream_flag : Runtime :=
  λ req, match req_stream req with
         | VBool true => ChatStream [py "streamed"] None
         | _ => ChatStream [py "complete"] None
         end.
Definition mario : Agent := new_agent (py "mario") (VStr (py "mario-custom")) VNone.

(** A configuration with one persona, [X], and the chat system that
    [MultiAgentChat()] builds from it. *)
Definition one_agent_config : pyval :=
  VDict [ (py "models",
           VDict [ (py "X",
                    VDict [ (py "base_model", VStr (py "llama3"));
                            (py "custom_name", VStr (py "x-custom"));
                            (py "system_prompt", VStr (py "You are X.")) ]) ]);
          (py "chat_settings", VDict [ (py "temperature", VFloat (1 # 2)) ]) ].
Definition agent_x : Agent :=
  new_agent (py "X") (VStr (py "x-custom")) (VStr (py "You are X.")).
Definition one_agent : MultiAgentChat :=
  {| config := one_agent_config; agents := {[ py "X" := agent_x ]} |}.

Definition one_turn_schedule : list action :=
  [ MainStep; MainStep; MainStep; MainStep;
    WorkerStart (ChatStream [py "hi"; py " there"] None);
    WorkerStep 0; WorkerStep 0; WorkerStep 0;
    MainStep; MainStep ].

Definition overlapping_schedule : list action :=
  [ MainStep; MainStep; MainStep; MainStep;
    WorkerStart (ChatStream [py "one"] None);
    WorkerStart (ChatStream [py "two"] None) ].
Definition overlapping_schedule_end : list action :=
  [ WorkerStep 0; WorkerStep 1; WorkerStep 0; WorkerStep 1;
    MainStep; MainStep; MainStep ].

Definition spliced_input : pystr := py "<thi<think>x</think>nk>y</think>".
Definition nested_input : pystr :=
  think_open ++ (py "a" ++ think_open ++ py "b" ++ think_close ++ py "c")
    ++ think_close ++ py "d".
Definition unterminated_input : pystr := py "a" ++ think_open ++ py "b".

(** * Properties *)

(** ** Strings *)

Section strings.
Implicit Types (p s r u w : pystr).

Lemma strip_prefix_spec p s r : strip_prefix p s = Some r ↔ s = p ++ r.
Proof.
  revert s; induction p as [|a p IH]; intros [|b s]; simpl.
  - split; [by intros [= <-]|by intros <-].
  - split; [by intros [= <-]|by intros <-].
  - split; done.
  - destruct (N.eqb_spec a b) as [->|Hne].
    + rewrite IH. split; [by intros ->|by intros [= ->]].
    + split; [done|]. intros [= ? ?]. congruence.
Qed.

Lemma strip_prefix_app p r : strip_prefix p (p ++ r) = Some r.
Proof. by apply strip_prefix_spec. Qed.

(** A prefix of [u ++ w] lies in [u], or [u] is used up inside it. *)
Lemma strip_prefix_app_inv p u w r :
  strip_prefix p (u ++ w) = Some r →
  (∃ r', strip_prefix p u = Some r' ∧ r = r' ++ w)
  ∨ (length u < length p ∧ strip_prefix (drop (length u) p) w = Some r).
Proof.
  rewrite strip_prefix_spec. intros H.
  destruct (decide (length p ≤ length u)) as [Hle|Hgt].
  - left. exists (drop (length p) u).
    assert (take (length p) u = p) as Hp.
    { apply (f_equal (take (length p))) in H.
      rewrite take_app_le in H by done. by rewrite take_app_length in H. }
    split.
    + apply strip_prefix_spec.
      rewrite <- (take_drop (length p) u) at 1. by rewrite Hp.
    + apply (f_equal (drop (length p))) in H.
      rewrite drop_app_le in H by done. by rewrite drop_app_length in H.
  - right. split; [lia|]. apply strip_prefix_spec.
    apply (f_equal (drop (length u))) in H.
    rewrite drop_app_length in H. rewrite drop_app_le in H by lia. done.
Qed.

Lemma find_after_None_cons p c s :
  find_after p (c :: s) = None ↔ strip_prefix p (c :: s) = None ∧ find_after p s = None.
Proof.
  cbn [find_after]. destruct (strip_prefix p (c :: s)); [split; [done|by intros []]|].
  split; [done|by intros []].
Qed.

Lemma find_after_None_head p s : find_after p s = None → strip_prefix p s = None.
Proof. destruct s; simpl; by destruct (strip_prefix p _). Qed.

(** An occurrence found in [u] is still the first one in [u ++ w]. *)
Lemma find_after_app_found p u w r :
  find_after p u = Some r → find_after p (u ++ w) = Some (r ++ w).
Proof.
  revert r; induction u as [|b u IH]; intros r.
  - simpl. destruct (strip_prefix p []) eqn:E; [|done]. intros [= ->].
    apply strip_prefix_spec in E.
    assert (strip_prefix p w = Some ((r ++ w))) as Hw.
    { apply strip_prefix_spec.
      symmetry in E. apply app_eq_nil in E as [-> ->]. done. }
    destruct w; simpl in *; by rewrite Hw.
  - cbn [find_after app]. change (b :: u ++ w) with ((b :: u) ++ w).
    destruct (strip_prefix p (b :: u)) as [r0|] eqn:E.
    + intros [= ->]. apply strip_prefix_spec in E.
      assert (strip_prefix p ((b :: u) ++ w) = Some (r ++ w)) as ->; [|done].
      apply strip_prefix_spec. by rewrite E, (assoc_L (++)).
    + intros Hu. destruct (strip_prefix p ((b :: u) ++ w)) as [r1|] eqn:E1.
      * apply strip_prefix_app_inv in E1 as [(r' & Hr' & _)|[Hlen _]]; [congruence|].
        apply find_after_length in Hu. simpl in Hlen. lia.
      * by apply IH.
Qed.

Lemma strip_prefix_app_None p u w :
  u ≠ [] → strip_prefix p u = None → no_overlap p w →
  strip_prefix p (u ++ w) = None.
Proof.
  intros Hu Hp Hw. destruct (strip_prefix p (u ++ w)) as [r|] eqn:E; [|done].
  apply strip_prefix_app_inv in E as [(r' & Hr' & _)|[Hlen E]]; [congruence|].
  rewrite Hw in E; [done|]. destruct u; [done|simpl in *; lia].
Qed.

Lemma find_after_app_None p u w :
  find_after p u = None → no_overlap p w →
  find_after p (u ++ w) = find_after p w.
Proof.
  intros Hu Hw. induction u as [|b u IH]; [done|].
  apply find_after_None_cons in Hu as [Hhd Hu].
  cbn [find_after app]. change (b :: u ++ w) with ((b :: u) ++ w).
  rewrite strip_prefix_app_None by done. by apply IH.
Qed.
End strings.

(** ** Whitespace trimming *)

Section trimming.
Implicit Types (s a b m : pystr).

Lemma lstrip_length s : length (lstrip s) ≤ length s.
Proof. induction s as [|c s IH]; simpl; [done|]. destruct (isspace c); simpl; lia. Qed.

Lemma lstrip_idemp s : lstrip (lstrip s) = lstrip s.
Proof.
  induction s as [|c s IH]; simpl; [done|].
  destruct (isspace c) eqn:E; [done|]. simpl. by rewrite E.
Qed.

Lemma lstrip_app s b :
  lstrip (s ++ b) = if forallb isspace s then lstrip b else lstrip s ++ b.
Proof.
  induction s as [|c s IH]; simpl; [done|].
  destruct (isspace c); simpl; done.
Qed.

Lemma lstrip_solid m : starts_solid m → lstrip m = m.
Proof. destruct m as [|c m]; simpl; [done|]. by intros ->. Qed.

Lemma starts_solid_app m b : starts_solid m → starts_solid (m ++ b).
Proof. by destruct m. Qed.

Lemma lstrip_before_solid a m : starts_solid m → lstrip (a ++ m) = lstrip a ++ m.
Proof.
  intros Hm. rewrite lstrip_app. destruct (forallb isspace a) eqn:E; [|done].
  rewrite (lstrip_solid m Hm). clear Hm. induction a as [|c a IH]; simpl in *; [done|].
  apply andb_prop in E as [-> E]. by apply IH.
Qed.

Lemma rstrip_after_solid m b : ends_solid m → rstrip (m ++ b) = m ++ rstrip b.
Proof.
  intros Hm. unfold rstrip. rewrite rev_app_distr.
  rewrite lstrip_before_solid by done. by rewrite rev_app_distr, rev_involutive.
Qed.

Lemma rstrip_length s : length (rstrip s) ≤ length s.
Proof.
  unfold rstrip. rewrite length_rev. etrans; [apply lstrip_length|].
  by rewrite length_rev.
Qed.

Lemma strip_length s : length (strip s) ≤ length s.
Proof. unfold strip. etrans; [apply rstrip_length|apply lstrip_length]. Qed.

Lemma rstrip_idemp s : rstrip (rstrip s) = rstrip s.
Proof. unfold rstrip. by rewrite rev_involutive, lstrip_idemp. Qed.

(** Trimming on the right keeps a first character that is not whitespace. *)
Lemma rstrip_cons_solid c s : isspace c = false → rstrip (c :: s) = c :: rstrip s.
Proof. intros Hc. by apply (rstrip_after_solid [c] s). Qed.

Lemma lstrip_cases s : lstrip s = [] ∨ starts_solid (lstrip s).
Proof.
  induction s as [|c s IH]; simpl; [by left|].
  destruct (isspace c) eqn:E; [done|]. by right.
Qed.

Lemma strip_idemp s : strip (strip s) = strip s.
Proof.
  unfold strip. destruct (lstrip_cases s) as [->|Hs]; [done|].
  destruct (lstrip s) as [|c t]; [done|]. simpl in Hs.
  rewrite rstrip_cons_solid by done. simpl. rewrite Hs.
  rewrite <- rstrip_cons_solid by done. apply rstrip_idemp.
Qed.

(** Trimming a text around a part that begins and ends with something
    other than whitespace only touches what is before and after it. *)
Lemma strip_around a m b :
  starts_solid m → ends_solid m → strip (a ++ m ++ b) = lstrip a ++ m ++ rstrip b.
Proof.
  intros H1 H2. unfold strip.
  rewrite lstrip_before_solid by by apply starts_solid_app.
  rewrite (assoc_L (++)), rstrip_after_solid.
  - by rewrite <- (assoc_L (++)).
  - unfold ends_solid in *. rewrite rev_app_distr. by apply starts_solid_app.
Qed.
End trimming.

(** ** The substitution *)

Section substitution.
Implicit Types (s r pre body post rest : pystr).

Lemma re_sub_match c s r :
  think_match (c :: s) = Some r → re_sub (c :: s) = re_sub r.
Proof.
  intros H. rewrite re_sub_equation_2.
  destruct (inspect (think_match (c :: s))) as [[r'|] E]; simpl; congruence.
Qed.

Lemma re_sub_nomatch c s :
  think_match (c :: s) = None → re_sub (c :: s) = c :: re_sub s.
Proof.
  intros H. rewrite re_sub_equation_2.
  destruct (inspect (think_match (c :: s))) as [[r'|] E]; simpl; congruence.
Qed.

Lemma think_match_nil : think_match [] = None.
Proof. done. Qed.

(** The same, for a text that is not known to be non-empty. *)
Lemma re_sub_match' s r : think_match s = Some r → re_sub s = re_sub r.
Proof. destruct s; [done|]. apply re_sub_match. Qed.

(** Induction along the scan of [re_sub]. *)
Lemma re_sub_scan_ind (P : pystr → Prop) :
  P [] →
  (∀ c s r, think_match (c :: s) = Some r → P r → P (c :: s)) →
  (∀ c s, think_match (c :: s) = None → P s → P (c :: s)) →
  ∀ s, P s.
Proof.
  intros Hnil Hmatch Hnone s.
  remember (length s) as n eqn:Hn. revert s Hn.
  induction n as [n IH] using lt_wf_ind. intros [|c s] ->; [done|].
  destruct (think_match (c :: s)) as [r|] eqn:E.
  - apply (Hmatch _ _ _ E). apply (IH (length r)); [|done].
    by apply think_match_shorter in E.
  - apply (Hnone _ _ E). apply (IH (length s)); [simpl; lia|done].
Qed.

Lemma re_sub_length s : length (re_sub s) ≤ length s.
Proof.
  induction s as [|c s r E IH|c s E IH] using re_sub_scan_ind; [done| |].
  - rewrite (re_sub_match _ _ _ E). apply think_match_shorter in E. lia.
  - rewrite (re_sub_nomatch _ _ E). simpl. lia.
Qed.

Lemma re_sub_no_span s : has_span s = false → re_sub s = s.
Proof.
  induction s as [|c s IH]; [done|]. cbn [has_span].
  destruct (think_match (c :: s)) eqn:E; [done|]. intros Hs.
  rewrite (re_sub_nomatch _ _ E). by rewrite IH.
Qed.

Lemma re_sub_span_shrinks s : has_span s = true → length (re_sub s) < length s.
Proof.
  induction s as [|c s IH]; [done|]. cbn [has_span].
  destruct (think_match (c :: s)) as [r|] eqn:E.
  - intros _. rewrite (re_sub_match _ _ _ E).
    apply think_match_shorter in E. pose proof (re_sub_length r). lia.
  - intros Hs. rewrite (re_sub_nomatch _ _ E). simpl. apply IH in Hs. lia.
Qed.

(** *** How the two markers can overlap *)

Lemma find_close_skips_open rest :
  find_after think_close (think_open ++ rest) = find_after think_close rest.
Proof. reflexivity. Qed.

Lemma no_overlap_close_close post : no_overlap think_close (think_close ++ post).
Proof.
  intros k [Hk1 Hk2]. change (length think_close) with 8 in Hk2.
  do 8 (destruct k as [|k]; [by (lia || reflexivity)|]). lia.
Qed.

Lemma no_overlap_open_open rest : no_overlap think_open (think_open ++ rest).
Proof.
  intros k [Hk1 Hk2]. change (length think_open) with 7 in Hk2.
  do 7 (destruct k as [|k]; [by (lia || reflexivity)|]). lia.
Qed.

Lemma no_overlap_close_open rest : no_overlap think_close (think_open ++ rest).
Proof.
  intros k [Hk1 Hk2]. change (length think_close) with 8 in Hk2.
  do 8 (destruct k as [|k]; [by (lia || reflexivity)|]). lia.
Qed.

Lemma contains_false p s : contains p s = false ↔ find_after p s = None.
Proof. unfold contains. by destruct (find_after p s). Qed.

(** A text without closing marker has no span. *)
Lemma no_close_no_span s : find_after think_close s = None → has_span s = false.
Proof.
  induction s as [|c s IH]; [done|]. intros Hs. cbn [has_span].
  destruct (think_match (c :: s)) as [r|] eqn:E.
  - unfold think_match in E.
    destruct (strip_prefix think_open (c :: s)) as [body|] eqn:Ep; [|done].
    apply strip_prefix_spec in Ep. rewrite Ep, find_close_skips_open in Hs. congruence.
  - apply IH. by apply find_after_None_cons in Hs as [_ ?].
Qed.

(** The span from an opening marker to the first closing marker after it
    is removed, whatever it contains, and the scan goes on after it. *)
Lemma re_sub_span pre body post :
  contains think_open pre = false →
  contains think_close body = false →
  re_sub (pre ++ think_open ++ body ++ think_close ++ post) = pre ++ re_sub post.
Proof.
  rewrite !contains_false. intros Hpre Hbody.
  induction pre as [|c pre IH].
  - apply re_sub_match'. unfold think_match. cbn [app]. rewrite strip_prefix_app.
    rewrite find_after_app_None by auto using no_overlap_close_close.
    assert (strip_prefix think_close (think_close ++ post) = Some post) as Hp
      by apply strip_prefix_app.
    destruct (think_close ++ post) eqn:E; [done|]. cbn [find_after]. by rewrite Hp.
  - apply find_after_None_cons in Hpre as [Hhd Hpre].
    cbn [app]. rewrite re_sub_nomatch; [by rewrite IH|].
    unfold think_match. change (c :: pre ++ ?x) with ((c :: pre) ++ x).
    by rewrite strip_prefix_app_None by auto using no_overlap_open_open.
Qed.

(** An opening marker with no closing marker after it stays where it is,
    with everything after it. *)
Lemma re_sub_unterminated pre rest :
  contains think_close rest = false →
  re_sub (pre ++ think_open ++ rest) = re_sub pre ++ think_open ++ rest.
Proof.
  rewrite contains_false. intros Hrest.
  assert (find_after think_close (think_open ++ rest) = None) as Hw
    by by rewrite find_close_skips_open.
  pose proof (no_overlap_close_open rest) as Hcw.
  pose proof (no_overlap_open_open rest) as How.
  generalize dependent (think_open ++ rest). intros w Hw Hcw How.
  induction pre as [|c pre r E IH|c pre E IH] using re_sub_scan_ind.
  - apply re_sub_no_span. by apply no_close_no_span.
  - rewrite (re_sub_match _ _ _ E), <- IH. apply re_sub_match'.
    unfold think_match in *.
    destruct (strip_prefix think_open (c :: pre)) as [body|] eqn:Ep; [|done].
    apply strip_prefix_spec in Ep. rewrite Ep, <- (assoc_L (++)), strip_prefix_app.
    by apply find_after_app_found.
  - rewrite (re_sub_nomatch _ _ E). cbn [app]. rewrite re_sub_nomatch; [by rewrite IH|].
    unfold think_match in *. change (c :: pre ++ w) with ((c :: pre) ++ w).
    destruct (strip_prefix think_open (c :: pre)) as [body|] eqn:Ep.
    + apply strip_prefix_spec in Ep. rewrite Ep, <- (assoc_L (++)), strip_prefix_app.
      by rewrite find_after_app_None.
    + by rewrite strip_prefix_app_None.
Qed.

End substitution.

Lemma strip_trimmed s :
  strip s = [] ∨ (starts_solid (strip s) ∧ ends_solid (strip s)).
Proof.
  unfold strip. destruct (lstrip_cases s) as [->|Hs]; [by left|].
  destruct (lstrip s) as [|c t]; [done|]. simpl in Hs. right.
  rewrite rstrip_cons_solid by done. split; [done|].
  rewrite <- rstrip_cons_solid by done. unfold ends_solid, rstrip.
  rewrite rev_involutive. destruct (lstrip_cases (rev (c :: t))) as [E|]; [|done].
  exfalso. revert E. simpl. rewrite lstrip_before_solid by done.
  by destruct (lstrip (rev t)).
Qed.

(** ** One agent *)

Section agent.
Implicit Types (self : Agent) (out : list pystr) (rt : Runtime).

Lemma consume_stream_run {X} chunks interrupted acc (st : X * list pystr) :
  consume_stream chunks interrupted acc st
  = (match interrupted with
     | None => inr (acc ++ concat chunks)
     | Some e => inl e
     end, (st.1, st.2 ++ chunks)).
Proof.
  revert acc st; induction chunks as [|c chunks IH]; intros acc [x out]; simpl.
  - rewrite (app_nil_r out), (app_nil_r acc). by destruct interrupted.
  - unfold mbind, Py_bind, bind, print. simpl. rewrite IH. simpl.
    rewrite <- !(assoc_L (++)). done.
Qed.

Lemma stream_chat_body_run rt message chat_settings self out :
  stream_chat_body rt message chat_settings (self, out)
  = let self1 := append_message (py "user") message self in
    match turn_result rt message chat_settings self with
    | (printed, inr full) =>
        (inr tt, (append_message (py "assistant") (get_clean_response full) self1,
                  out ++ [name_line self] ++ printed ++ [nl]))
    | (printed, inl e) => (inl e, (self1, out ++ [name_line self] ++ printed))
    end.
Proof.
  unfold stream_chat_body, turn_result.
  unfold mbind, Py_bind, bind, add_message, modify, get, print, lift, ollama_chat. simpl.
  destruct (py_get chat_settings _ _) as [e|t]; simpl; [reflexivity|].
  destruct (rt _) as [e|chunks [e|]]; simpl; [reflexivity| |].
  - unfold ret. rewrite consume_stream_run. simpl. by rewrite <- (assoc_L (++)).
  - unfold ret. rewrite consume_stream_run. simpl. by rewrite <- !(assoc_L (++)).
Qed.

Lemma stream_chat_run rt message chat_settings self out :
  stream_chat rt message chat_settings (self, out)
  = let self1 := append_message (py "user") message self in
    match turn_result rt message chat_settings self with
    | (printed, inr full) =>
        (inr tt, (append_message (py "assistant") (get_clean_response full) self1,
                  out ++ [name_line self] ++ printed ++ [nl]))
    | (printed, inl e) =>
        (inr tt, (self1, out ++ [name_line self] ++ printed ++ [error_line self e]))
    end.
Proof.
  unfold stream_chat, try_except. rewrite stream_chat_body_run. cbv zeta.
  destruct (turn_result rt message chat_settings self) as [printed [e|full]]; [|done].
  unfold mbind, Py_bind, bind, get, print. simpl.
  by rewrite <- !(assoc_L (++)).
Qed.

Lemma converse_succeeds_run c self out :
  converse_succeeds c (self, out)
  = match (turn_result (call_runtime c) (call_message c) (call_settings c) self).2 with
    | inr _ => true
    | inl _ => false
    end.
Proof.
  unfold converse_succeeds. rewrite stream_chat_body_run. cbv zeta.
  by destruct (turn_result _ _ _ self) as [printed [e|full]].
Qed.

(** [stream_chat] never raises. *)
Lemma stream_chat_returns rt message chat_settings st :
  (stream_chat rt message chat_settings st).1 = inr tt.
Proof.
  destruct st as [self out]. rewrite stream_chat_run. cbv zeta.
  by destruct (turn_result _ _ _ self) as [printed [e|full]].
Qed.

(** A call appends to the history: one entry or two. *)
Lemma stream_chat_history rt message chat_settings self out :
  ∃ new, conversation_history (stream_chat rt message chat_settings (self, out)).2.1
         = conversation_history self ++ new.
Proof.
  rewrite stream_chat_run. cbv zeta.
  destruct (turn_result _ _ _ self) as [printed [e|full]]; simpl.
  - by eexists.
  - rewrite <- (assoc_L (++)). by eexists.
Qed.

Lemma converse_all_history calls self out :
  conversation_history self
    `prefix_of` conversation_history (converse_all calls (self, out)).2.1.
Proof.
  revert self out; induction calls as [|c calls IH]; intros self out; [done|].
  cbn [converse_all]. unfold mbind, Py_bind, bind.
  pose proof (stream_chat_returns (call_runtime c) (call_message c)
                (call_settings c) (self, out)) as Hret.
  destruct (stream_chat_history (call_runtime c) (call_message c)
              (call_settings c) self out) as [new Hnew].
  unfold converse.
  destruct (stream_chat _ _ _ (self, out)) as [r [self' out']]. simpl in *. subst r.
  etrans; [|apply IH]. rewrite Hnew. by apply prefix_app_r.
Qed.

(** After successful calls the history has grown by one user and one
    assistant entry per call. *)
Lemma converse_all_turns calls self out :
  all_succeed calls (self, out) = true →
  ∃ turns, conversation_history (converse_all calls (self, out)).2.1
           = conversation_history self ++ turns
           ∧ role <$> turns = turn_roles (length calls).
Proof.
  revert self out; induction calls as [|c calls IH]; intros self out.
  - intros _. exists []. by rewrite (app_nil_r (conversation_history self)).
  - cbn [all_succeed converse_all]. intros [Hc Hrest]%andb_prop.
    rewrite converse_succeeds_run in Hc.
    unfold mbind, Py_bind, bind. unfold converse in *.
    rewrite stream_chat_run in *. cbv zeta in *.
    destruct (turn_result _ _ _ self) as [printed [e|full]]; [done|]. simpl in *.
    destruct (IH _ _ Hrest) as (turns & Hh & Hroles). simpl in Hh.
    eexists (_ :: _ :: turns). split.
    + rewrite Hh. rewrite <- !(assoc_L (++)). reflexivity.
    + by rewrite !fmap_cons, Hroles.
Qed.

Lemma turn_roles_length n : length (turn_roles n) = 2 * n.
Proof. induction n; simpl; lia. Qed.

Lemma task_run_streaming full chunks interrupted self out :
  task_run (S (length chunks)) (Streaming full chunks interrupted) (self, out)
  = (inr Finished,
     match interrupted with
     | None => (append_message (py "assistant")
                  (get_clean_response (full ++ concat chunks)) self,
                out ++ chunks ++ [nl])
     | Some e => (self, out ++ chunks ++ [error_line self e])
     end).
Proof.
  revert full out; induction chunks as [|c chunks IH]; intros full out.
  - simpl. rewrite (app_nil_r full). by destruct interrupted.
  - cbn [length task_run]. cbn [task_run] in IH.
    unfold mbind, Py_bind, bind at 1. cbn [task_continue].
    unfold mbind, Py_bind, bind at 1. unfold print at 1. cbn [fst snd ret].
    unfold mbind, Py_bind in IH. rewrite IH. cbn [concat].
    destruct interrupted; try rewrite <- (assoc_L (++) full);
      by rewrite <- (assoc_L (++) out).
Qed.

(** Run without interruption, the pieces of a task are [stream_chat]. *)
Lemma task_pieces_are_stream_chat outcome message chat_settings self out :
  ∃ n, (st ← task_start outcome message chat_settings; task_run n st) (self, out)
       = (inr Finished, (stream_chat (λ _, outcome) message chat_settings (self, out)).2).
Proof.
  rewrite stream_chat_run. cbv zeta. unfold turn_result.
  unfold mbind, Py_bind, bind at 1. unfold task_start, try_except, report_error.
  unfold mbind, Py_bind, bind, add_message, modify, get, print, lift, ollama_chat, ret.
  cbn [fst snd]. destruct (py_get chat_settings _ _) as [e|t].
  { exists 0. simpl. by rewrite <- (assoc_L (++) out). }
  destruct outcome as [e|chunks term].
  - exists 0. simpl. by rewrite <- (assoc_L (++) out).
  - exists (S (length chunks)).
    cbn [fst snd]. rewrite (task_run_streaming [] chunks term).
    destruct term as [e|]; simpl; by rewrite <- (assoc_L (++) out).
Qed.
End agent.

(** ** The worker pool *)

Section pool.
Implicit Types (s : Dispatch) (f : Future) (agent : Agent) (st : stage).

Lemma first_queued_spec fs j :
  first_queued fs = Some j → ∃ f, fs !! j = Some f ∧ is_queued f = true.
Proof.
  revert j; induction fs as [|f fs IH]; intros j; simpl; [done|].
  destruct (is_queued f) eqn:E.
  - intros [= <-]. by exists f.
  - destruct (first_queued fs) as [j'|]; [|done]. intros [= <-]. by apply IH.
Qed.

Lemma task_start_appends outcome message chat_settings :
  appends (task_start outcome message chat_settings).
Proof.
  intros agent. unfold task_start, try_except, report_error.
  unfold mbind, Py_bind, bind, add_message, modify, get, print, lift, ollama_chat, ret.
  simpl. destruct (py_get chat_settings _ _) as [e|t]; simpl.
  { do 3 eexists. split; [done|]. split; [done|]. by apply prefix_app_r. }
  destruct outcome as [e|chunks term]; simpl.
  - do 3 eexists. split; [done|]. split; [done|]. by apply prefix_app_r.
  - do 3 eexists. split; [done|]. split; [done|]. by apply prefix_app_r.
Qed.

Lemma task_continue_appends st : appends (task_continue st).
Proof.
  intros agent. unfold task_continue, report_error.
  unfold mbind, Py_bind, bind, add_message, modify, get, print, ret.
  destruct st as [|full [|c chunks] [e|]|]; simpl;
    do 3 eexists; (split; [done|]); (split; [done|]); done || by apply prefix_app_r.
Qed.

Lemma worker_step_moves piece j s s' f :
  futures s !! j = Some f → is_finished f = false →
  appends (piece (fut_stage f)) →
  worker_step piece j s = Some s' → worker_moves j s s'.
Proof.
  intros Hf Hnf Hpiece. unfold worker_step. rewrite Hf. simpl.
  destruct (registry s !! fut_agent f) as [agent|] eqn:Ha; [|done]. simpl.
  destruct (Hpiece agent) as (st' & agent' & out & -> & Hname & Hpre).
  intros [= <-]. by exists f, agent, st', agent', out.
Qed.

Lemma exec_worker_start message cs names outcome s s' :
  exec message cs names (WorkerStart outcome) s = Some s' → ∃ j, worker_moves j s s'.
Proof.
  simpl. destruct (first_queued (futures s)) as [j|] eqn:Hq; [|done]. simpl.
  case_decide; [|done]. apply first_queued_spec in Hq as (f & Hf & Hq).
  intros Hstep. exists j.
  eapply (worker_step_moves (λ _, task_start outcome message cs));
    [done| |apply task_start_appends|done].
  unfold is_queued, is_finished in *. by destruct (fut_stage f).
Qed.

Lemma exec_worker_step message cs names j s s' :
  exec message cs names (WorkerStep j) s = Some s' → worker_moves j s s'.
Proof.
  simpl. destruct (futures s !! j) as [f|] eqn:Hf; [|done]. simpl.
  destruct (is_running f) eqn:Hr; [|done].
  intros Hstep.
  eapply (worker_step_moves task_continue); [done| |apply task_continue_appends|done].
  unfold is_running, is_finished in *. by destruct (fut_stage f).
Qed.

(** A step of the main thread leaves the agents and the submitted tasks as
    they are; it can only submit one more. *)
Lemma main_step_keeps names s s' :
  main_step names s = Some s' →
  registry s' = registry s ∧ futures s `prefix_of` futures s'.
Proof.
  unfold main_step. destruct (pc s) as [|[|n todo]|i|].
  - by intros [= <-].
  - by intros [= <-].
  - destruct (registry s !! n); intros [= <-]; simpl; [|done].
    split; [done|]. by apply prefix_app_r.
  - destruct (futures s !! i) as [f|]; [destruct (is_finished f)|];
      by intros [= <-].
  - done.
Qed.

(** Histories only grow, whichever thread moves. *)
Lemma exec_history_grows message cs names a s s' k agent :
  exec message cs names a s = Some s' →
  registry s !! k = Some agent →
  ∃ agent', registry s' !! k = Some agent'
            ∧ conversation_history agent `prefix_of` conversation_history agent'.
Proof.
  intros Hexec Hk.
  assert ((registry s' = registry s) ∨ ∃ j, worker_moves j s s') as [->|[j Hj]].
  { destruct a as [|o|j].
    - left. by apply main_step_keeps in Hexec as [? _].
    - right. by eapply exec_worker_start.
    - right. exists j. by eapply exec_worker_step. }
  - by exists agent.
  - destruct Hj as (f & a0 & st' & a1 & out & Hf & _ & Ha0 & _ & Hpre & ->). simpl.
    destruct (decide (fut_agent f = k)) as [<-|Hne].
    + rewrite lookup_insert_eq. exists a1. split; [done|]. congruence.
    + rewrite lookup_insert_ne by done. by exists agent.
Qed.

Lemma exec_registered message cs names a s s' k :
  exec message cs names a s = Some s' →
  is_Some (registry s' !! k) ↔ is_Some (registry s !! k).
Proof.
  intros Hexec.
  assert ((registry s' = registry s) ∨ ∃ j, worker_moves j s s') as [->|[j Hj]]; [|done|].
  { destruct a as [|o|j].
    - left. by apply main_step_keeps in Hexec as [? _].
    - right. by eapply exec_worker_start.
    - right. exists j. by eapply exec_worker_step. }
  destruct Hj as (f & a0 & st' & a1 & out & Hf & _ & Ha0 & _ & Hpre & ->). simpl.
  destruct (decide (fut_agent f = k)) as [<-|Hne].
  - rewrite lookup_insert_eq, Ha0. split; by eexists.
  - by rewrite lookup_insert_ne.
Qed.

Lemma known_ext reg reg' names :
  (∀ k, is_Some (reg' !! k) ↔ is_Some (reg !! k)) → known reg' names = known reg names.
Proof.
  intros Hreg. unfold known. induction names as [|n names IH]; [done|].
  rewrite !filter_cons, IH. destruct (Hreg n) as [H1 H2].
  repeat case_decide; tauto.
Qed.

Lemma unknown_ext reg reg' names :
  (∀ k, is_Some (reg' !! k) ↔ is_Some (reg !! k)) →
  unknown reg' names = unknown reg names.
Proof.
  intros Hreg. unfold unknown. induction names as [|n names IH]; [done|].
  rewrite !filter_cons, IH. destruct (Hreg n) as [H1 H2].
  rewrite <- !not_eq_None_Some in *. repeat case_decide; tauto.
Qed.

Lemma known_snoc reg seen n :
  known reg (seen ++ [n])
  = known reg seen ++ (if decide (is_Some (reg !! n)) then [n] else []).
Proof. unfold known. rewrite filter_app. f_equal. Qed.

Lemma unknown_snoc reg seen n :
  unknown reg (seen ++ [n])
  = unknown reg seen ++ (if decide (is_Some (reg !! n)) then [] else [n]).
Proof.
  unfold unknown. rewrite filter_app. f_equal.
  rewrite filter_cons, filter_nil.
  destruct (decide (is_Some (reg !! n))) as [[a Ha]|Hn].
  - by rewrite decide_False by congruence.
  - rewrite decide_True; [done|]. by apply eq_None_not_Some.
Qed.

Lemma worker_moves_submitted j s s' : worker_moves j s s' → submitted s' = submitted s.
Proof.
  intros (f & a0 & st' & a1 & out & Hf & _ & _ & _ & _ & ->). unfold submitted. simpl.
  rewrite list_fmap_insert. simpl. apply list_insert_id.
  by rewrite list_lookup_fmap, Hf.
Qed.

Lemma worker_moves_main_output j s s' :
  worker_moves j s s' → main_output s' = main_output s.
Proof.
  intros (f & a0 & st' & a1 & out & Hf & _ & _ & _ & _ & ->). unfold main_output. simpl.
  rewrite filter_app, fmap_app.
  assert (filter (λ x : thread * pystr, x.1 = MainThread)
            (map (pair (WorkerThread j)) out) = []) as ->.
  { induction out as [|o out IH]; [done|]. simpl. by rewrite filter_cons_False. }
  simpl. apply app_nil_r.
Qed.

(** A worker does not touch a finished task. *)
Lemma worker_moves_lookup j s s' i f' :
  worker_moves j s s' → futures s' !! i = Some f' →
  ∃ f, futures s !! i = Some f ∧ (is_finished f = true → f' = f).
Proof.
  intros (f & a0 & st' & a1 & out & Hf & Hnf & _ & _ & _ & ->). simpl.
  destruct (decide (i = j)) as [->|Hne].
  - intros _. exists f. split; [done|]. congruence.
  - rewrite list_lookup_insert_ne by done. intros Hi. exists f'. by split.
Qed.

Lemma exec_dispatch_inv reg0 message cs names a s s' :
  exec message cs names a s = Some s' →
  dispatch_inv reg0 names s → dispatch_inv reg0 names s'.
Proof.
  intros Hexec [Hreg Hpc]. split.
  { intros k. rewrite <- Hreg. by eapply exec_registered. }
  assert (a = MainStep ∨ ∃ j, worker_moves j s s') as [->|[j Hj]].
  { destruct a as [|o|j]; [by left|right..].
    - by eapply exec_worker_start.
    - exists j. by eapply exec_worker_step. }
  - (* the main thread *)
    simpl in Hexec. unfold main_step in Hexec.
    destruct (pc s) as [|[|n todo]|i|] eqn:Epc.
    + injection Hexec as <-. simpl. destruct Hpc as [Hf Hout].
      exists []. split; [done|]. unfold submitted, main_output in *. simpl.
      rewrite Hf, filter_app, fmap_app, Hout. done.
    + injection Hexec as <-. simpl. destruct Hpc as (seen & Hn & Hsub & Hout).
      rewrite (app_nil_r seen) in Hn. subst seen. split; [done|]. split; [done|]. lia.
    + destruct Hpc as (seen & Hn & Hsub & Hout).
      destruct (registry s !! n) as [agent|] eqn:Hlook; injection Hexec as <-; simpl.
      * exists (seen ++ [n]). split; [by rewrite <- (assoc_L (++))|].
        assert (is_Some (reg0 !! n)) as Hn0 by (apply Hreg; by eexists).
        rewrite known_snoc, unknown_snoc, !decide_True by done.
        rewrite (app_nil_r (unknown reg0 seen)). split; [|done].
        unfold submitted in *. cbn [futures]. by rewrite fmap_app, Hsub.
      * exists (seen ++ [n]). split; [by rewrite <- (assoc_L (++))|].
        assert (¬ is_Some (reg0 !! n)) as Hn0.
        { rewrite <- Hreg, Hlook. by intros [? ?]. }
        rewrite known_snoc, unknown_snoc, !decide_False by done.
        rewrite (app_nil_r (known reg0 seen)). split; [done|].
        unfold main_output in *. cbn [stdout].
        rewrite filter_app, fmap_app, Hout, fmap_app. done.
    + destruct Hpc as (Hsub & Hout & Hfin).
      destruct (futures s !! i) as [f|] eqn:Hi.
      * destruct (is_finished f) eqn:Hf; [|done]. injection Hexec as <-. simpl.
        split; [done|]. split; [done|]. intros j f' Hj Hlook.
        destruct (decide (j = i)) as [->|]; [congruence|]. apply (Hfin j); [lia|done].
      * injection Hexec as <-. simpl. split; [done|]. split; [done|].
        intros j f' Hlook. apply (Hfin j); [|done].
        apply lookup_ge_None in Hi. apply lookup_lt_Some in Hlook. lia.
    + done.
  - (* a worker *)
    pose proof (worker_moves_submitted _ _ _ Hj) as Hsub'.
    pose proof (worker_moves_main_output _ _ _ Hj) as Hout'.
    assert (pc s' = pc s) as ->.
    { by destruct Hj as (? & ? & ? & ? & ? & _ & _ & _ & _ & _ & ->). }
    destruct (pc s) as [|todo|i|].
    + destruct Hpc as [Hf _]. destruct Hj as (f & ? & ? & ? & ? & Hlook & _).
      by rewrite Hf in Hlook.
    + destruct Hpc as (seen & ? & ? & ?). exists seen. by rewrite Hsub', Hout'.
    + destruct Hpc as (? & ? & Hfin). rewrite Hsub', Hout'. split; [done|]. split; [done|].
      intros j' f' Hlt Hlook.
      destruct (worker_moves_lookup _ _ _ _ _ Hj Hlook) as (f & Hf & Hsame).
      pose proof (Hfin _ _ Hlt Hf) as Hfinished. by rewrite (Hsame Hfinished).
    + destruct Hpc as (? & ? & Hfin). rewrite Hsub', Hout'. split; [done|]. split; [done|].
      intros j' f' Hlook.
      destruct (worker_moves_lookup _ _ _ _ _ Hj Hlook) as (f & Hf & Hsame).
      pose proof (Hfin _ _ Hf) as Hfinished. by rewrite (Hsame Hfinished).
Qed.

Lemma run_dispatch_inv reg0 message cs names schedule s s' :
  run message cs names schedule s = Some s' →
  dispatch_inv reg0 names s → dispatch_inv reg0 names s'.
Proof.
  revert s; induction schedule as [|a schedule IH]; intros s; simpl.
  - by intros [= <-].
  - destruct (exec message cs names a s) as [s1|] eqn:E; [|done]. simpl.
    intros Hrun Hinv. apply (IH s1); [done|]. by eapply exec_dispatch_inv.
Qed.

Lemma enter_dispatch_inv self names : dispatch_inv (agents self) names (enter self).
Proof. split; [done|]. by split. Qed.

End pool.

(** ** Turns and their failures *)

(** C1, as stated, fails: with the name of an agent twice in a batch, two
    calls of [stream_chat] on that agent overlap.  Here both succeed (each
    prints its chunks and the final newline, and no error line), and when
    [chat_with_agents] has returned the history has its [2 * 2] entries,
    but their roles are user, user, assistant, assistant. *)
Lemma overlapping_turns_do_not_alternate :
  ∃ s history,
    chat_with_agents one_agent (py "hello") [py "X"; py "X"]
      (overlapping_schedule ++ overlapping_schedule_end) = Some s
    ∧ pc s = Returned
    ∧ stdout s
      = [ (MainThread, nl ++ py "Responses:" ++ nl);
          (WorkerThread 0, nl ++ py "X: "); (WorkerThread 1, nl ++ py "X: ");
          (WorkerThread 0, py "one"); (WorkerThread 1, py "two");
          (WorkerThread 0, nl); (WorkerThread 1, nl) ]
    ∧ conversation_history <$> registry s !! py "X" = Some history
    ∧ length history = 2 * 2
    ∧ role <$> history = [py "user"; py "user"; py "assistant"; py "assistant"]
    ∧ role <$> history ≠ turn_roles 2.
Proof.
  eexists _, _. split; [vm_compute; reflexivity|].
  split; [reflexivity|]. split; [vm_compute; reflexivity|].
  split; [vm_compute; reflexivity|]. split; [reflexivity|].
  split; [vm_compute; reflexivity|]. vm_compute. discriminate.
Qed.

(** C1, amended: after [N] calls of [stream_chat], made one after the
    other, that all succeed, the history of a new agent has [2 * N]
    entries, with roles user, assistant, user, assistant, ...; and the
    history only ever grows at its end: in every sequence of calls,
    whatever their outcome, and in every step of a dispatch, whichever
    thread moves. *)
Theorem history_grows_by_turn_pairs :
  (∀ calls agent_name model system out,
     let self := new_agent agent_name model system in
     all_succeed calls (self, out) = true →
     let history := conversation_history (converse_all calls (self, out)).2.1 in
     length history = 2 * length calls
     ∧ role <$> history = turn_roles (length calls))
  ∧ (∀ calls self out,
       conversation_history self
         `prefix_of` conversation_history (converse_all calls (self, out)).2.1)
  ∧ (∀ message chat_settings agent_names a s s' k agent,
       exec message chat_settings agent_names a s = Some s' →
       registry s !! k = Some agent →
       ∃ agent', registry s' !! k = Some agent'
                 ∧ conversation_history agent `prefix_of` conversation_history agent').
Proof.
  split; [|split].
  - intros calls agent_name model system out self Hok history.
    destruct (converse_all_turns calls self out Hok) as (turns & Hh & Hroles).
    subst history. rewrite Hh. simpl.
    split; [|done]. by rewrite <- (length_fmap role), Hroles, turn_roles_length.
  - apply converse_all_history.
  - intros. by eapply exec_history_grows.
Qed.

Lemma history_grows_by_turn_pairs_witness :
  let calls := [ {| call_runtime := answers [py "It's-a me, "; py "Mario!"];
                    call_message := py "who are you?";
                    call_settings := VDict [] |};
                 {| call_runtime := answers [py "<think>hm</think> Wahoo!"];
                    call_message := py "again";
                    call_settings := VDict [(py "temperature", VFloat (1 # 2))] |} ] in
  let history := conversation_history (converse_all calls (mario, [])).2.1 in
  length history = 4
  ∧ role <$> history = [py "user"; py "assistant"; py "user"; py "assistant"].
Proof.
  intros calls.
  apply (proj1 history_grows_by_turn_pairs calls (py "mario")
           (VStr (py "mario-custom")) VNone []).
  vm_compute. reflexivity.
Defined.

(** C5: when the runtime call raises or the stream is interrupted,
    [stream_chat] still returns normally; it has printed a line that starts
    with ["Error from <name>: "], the user turn is in the history and no
    assistant turn is.  In a dispatch, a step of one task changes no other
    agent and no other task. *)
Theorem generation_failure_is_contained :
  (∀ rt message chat_settings self out temperature e,
     py_get chat_settings (py "temperature") default_temperature = inr temperature →
     (let req := stream_chat_request (append_message (py "user") message self)
                   temperature in
      rt req = ChatRaises e ∨ ∃ chunks, rt req = ChatStream chunks (Some e)) →
     ∃ printed,
       stream_chat rt message chat_settings (self, out)
       = (inr tt,
          ({| name := name self; model_name := model_name self;
              system_prompt := system_prompt self;
              conversation_history :=
                conversation_history self
                ++ [{| role := py "user"; content := message |}] |},
           out ++ [name_line self] ++ printed
               ++ [py "Error from " ++ name self ++ py ": " ++ exn_str e ++ nl])))
  ∧ (∀ message chat_settings agent_names a s s',
       a ≠ MainStep →
       exec message chat_settings agent_names a s = Some s' →
       ∃ j f, futures s !! j = Some f
              ∧ (∀ k, k ≠ fut_agent f → registry s' !! k = registry s !! k)
              ∧ (∀ i, i ≠ j → futures s' !! i = futures s !! i)
              ∧ pc s' = pc s).
Proof.
  split.
  - intros rt message cs self out t e Ht Hrt. cbv zeta in Hrt.
    rewrite stream_chat_run. cbv zeta. unfold turn_result. rewrite Ht.
    destruct Hrt as [->|[chunks ->]]; by eexists.
  - intros message cs names a s s' Ha Hexec.
    assert (∃ j, worker_moves j s s') as [j Hj].
    { destruct a as [|o|j]; [done| |].
      - by eapply exec_worker_start.
      - exists j. by eapply exec_worker_step. }
    destruct Hj as (f & a0 & st' & a1 & out & Hf & _ & _ & _ & _ & ->).
    exists j, f. simpl. split; [done|]. split; [|split; [|done]].
    + intros k Hk. by rewrite lookup_insert_ne.
    + intros i Hi. by rewrite list_lookup_insert_ne.
Qed.

Lemma generation_failure_is_contained_witness :
  ∃ printed,
    stream_chat (λ _, ChatStream [py "It's-a "] (Some (Exn RuntimeFailure (py "reset"))))
      (py "hello") (VDict []) (mario, [])
    = (inr tt,
       ({| name := py "mario"; model_name := VStr (py "mario-custom");
           system_prompt := VNone;
           conversation_history := [{| role := py "user"; content := py "hello" |}] |},
        [name_line mario] ++ printed ++ [py "Error from mario: reset" ++ nl])).
Proof.
  apply (proj1 generation_failure_is_contained
           (λ _, ChatStream [py "It's-a "] (Some (Exn RuntimeFailure (py "reset"))))
           (py "hello") (VDict []) mario [] default_temperature
           (Exn RuntimeFailure (py "reset"))).
  - reflexivity.
  - right. by eexists.
Defined.

(** ** Dispatch *)

Section dispatch_facts.
Implicit Types (self : MultiAgentChat) (s : Dispatch) (names : list pystr).

Lemma chat_with_agents_inv self message names schedule s :
  chat_with_agents self message names schedule = Some s →
  dispatch_inv (agents self) names s.
Proof.
  unfold chat_with_agents. destruct (chat_settings_of (config self)) as [|cs]; [done|].
  intros Hrun. eapply run_dispatch_inv; [done|]. apply enter_dispatch_inv.
Qed.

Lemma known_app reg names1 names2 :
  known reg (names1 ++ names2) = known reg names1 ++ known reg names2.
Proof. apply filter_app. Qed.

(** At every moment the submitted tasks are the known names met so far. *)
Lemma dispatch_inv_submitted reg0 names s :
  dispatch_inv reg0 names s → submitted s `prefix_of` known reg0 names.
Proof.
  intros [_ Hpc]. destruct (pc s) as [|todo|i|].
  - destruct Hpc as [Hf _]. unfold submitted. rewrite Hf. apply prefix_nil.
  - destruct Hpc as (seen & -> & -> & _). rewrite known_app. by apply prefix_app_r.
  - by destruct Hpc as (-> & _).
  - by destruct Hpc as (-> & _).
Qed.

Lemma invocations_submitted k s :
  length (invocations k s) = length (filter (λ n, n = k) (submitted s)).
Proof.
  unfold invocations, submitted. induction (futures s) as [|f fs IH]; [done|].
  rewrite fmap_cons, !filter_cons. simpl. repeat case_decide; simpl; congruence.
Qed.

Lemma filter_length_prefix `{EqDecision A} (k : A) (l1 l2 : list A) :
  l1 `prefix_of` l2 →
  length (filter (λ n, n = k) l1) ≤ length (filter (λ n, n = k) l2).
Proof. intros [l ->]. rewrite filter_app, length_app. lia. Qed.

Lemma filter_length_known reg k names :
  length (filter (λ n, n = k) (known reg names)) ≤ length (filter (λ n, n = k) names).
Proof.
  unfold known. induction names as [|n names IH]; [done|].
  rewrite !filter_cons. repeat case_decide; simpl; try rewrite filter_cons;
    repeat case_decide; simpl; try done; lia.
Qed.

Lemma filter_known_registered reg k names :
  is_Some (reg !! k) →
  filter (λ n, n = k) (known reg names) = filter (λ n, n = k) names.
Proof.
  intros Hk. unfold known. induction names as [|n names IH]; [done|].
  destruct (decide (n = k)) as [->|Hne].
  - rewrite (filter_cons_True (λ n, is_Some (reg !! n))) by done.
    by rewrite !(filter_cons_True (λ n, n = k)), IH by done.
  - rewrite (filter_cons_False (λ n, n = k) n names) by done.
    rewrite <- IH. rewrite (filter_cons (λ n, is_Some (reg !! n))).
    case_decide; [|done]. by rewrite filter_cons_False.
Qed.

Lemma filter_eq_absent `{EqDecision A} (k : A) (l : list A) :
  k ∉ l → filter (λ n, n = k) l = [].
Proof.
  induction l as [|n l IH]; [done|]. intros Hk. apply not_elem_of_cons in Hk as [Hne Hk].
  rewrite filter_cons_False by done. by apply IH.
Qed.


Lemma filter_length_NoDup `{EqDecision A} (k : A) (l : list A) :
  NoDup l → length (filter (λ n, n = k) l) ≤ 1.
Proof.
  induction 1 as [|n l Hn _ IH]; [simpl; lia|].
  rewrite filter_cons. case_decide as Hk; [|done]. subst n. simpl.
  rewrite filter_eq_absent by done. simpl. lia.
Qed.


Lemma run_app message cs names schedule1 schedule2 s :
  run message cs names (schedule1 ++ schedule2) s
  = run message cs names schedule1 s ≫= run message cs names schedule2.
Proof.
  revert s; induction schedule1 as [|a schedule1 IH]; intros s; [done|].
  simpl. destruct (exec message cs names a s) as [s1|]; [|done]. simpl. apply IH.
Qed.

(** Every submitted task belongs to a registered agent. *)
Lemma future_registered reg0 names s j f :
  dispatch_inv reg0 names s → futures s !! j = Some f →
  is_Some (registry s !! fut_agent f).
Proof.
  intros Hinv Hf. pose proof (dispatch_inv_submitted _ _ _ Hinv) as Hpre.
  destruct Hinv as [Hreg _]. apply Hreg.
  assert (fut_agent f ∈ submitted s) as Hin.
  { unfold submitted. apply list_elem_of_fmap. exists f. split; [done|].
    by eapply list_elem_of_lookup_2. }
  destruct Hpre as [rest Hrest]. unfold known in Hrest.
  assert (fut_agent f ∈ filter (λ n, is_Some (reg0 !! n)) names) as Hk.
  { rewrite Hrest. apply elem_of_app. by left. }
  by apply list_elem_of_filter in Hk as [? _].
Qed.

Lemma weight_insert fs j f f' :
  fs !! j = Some f →
  sum_list_with task_weight (<[j := f']> fs) + task_weight f
  = sum_list_with task_weight fs + task_weight f'.
Proof.
  revert j; induction fs as [|f0 fs IH]; intros [|j]; simpl; try done.
  - intros [= ->]. lia.
  - intros Hj. specialize (IH _ Hj). lia.
Qed.

Lemma first_queued_None fs :
  first_queued fs = None → Forall (λ f, is_queued f = false) fs.
Proof.
  induction fs as [|f fs IH]; simpl; [by constructor|].
  destruct (is_queued f) eqn:E; [done|].
  destruct (first_queued fs); [done|]. intros _. constructor; auto.
Qed.

Lemma running_none fs : Forall (λ f, is_running f ≠ true) fs → running fs = 0.
Proof.
  unfold running. induction 1 as [|f fs Hf _ IH]; [done|].
  by rewrite filter_cons_False.
Qed.

Lemma task_start_raises e message cs agent :
  ∃ agent' out, task_start (ChatRaises e) message cs (agent, [])
                = (inr Finished, (agent', out)).
Proof.
  unfold task_start, try_except, report_error.
  unfold mbind, Py_bind, bind, add_message, modify, get, print, lift, ollama_chat, ret.
  simpl. destruct (py_get cs _ _); by do 2 eexists.
Qed.

Lemma task_continue_lighter full chunks term agent :
  ∃ st' agent' out,
    task_continue (Streaming full chunks term) (agent, []) = (inr st', (agent', out))
    ∧ ∀ k, task_weight {| fut_agent := k; fut_stage := st' |} < S (length chunks).
Proof.
  unfold task_continue, report_error.
  unfold mbind, Py_bind, bind, add_message, modify, get, print, ret.
  destruct chunks as [|c chunks]; [destruct term|]; simpl;
    do 3 eexists; (split; [done|]); intros k; unfold task_weight; simpl; lia.
Qed.

(** A dispatch that has not returned can take a step that brings it closer
    to returning. *)
Lemma dispatch_progress reg0 message cs names s :
  dispatch_inv reg0 names s → pc s ≠ Returned →
  ∃ a s', exec message cs names a s = Some s' ∧ work_left names s' < work_left names s.
Proof.
  intros Hinv Hpc.
  destruct (list_find (λ f, is_running f = true) (futures s)) as [[j f]|] eqn:Hrun.
  { (* a running task goes on *)
    apply list_find_Some in Hrun as (Hj & Hr & _).
    destruct (future_registered _ _ _ _ _ Hinv Hj) as [agent Hagent].
    exists (WorkerStep j). simpl. rewrite Hj. simpl. rewrite Hr.
    unfold worker_step. rewrite Hj. simpl. rewrite Hagent. simpl.
    unfold is_running in Hr. destruct (fut_stage f) as [|full chunks term|] eqn:Hst; try done.
    destruct (task_continue_lighter full chunks term agent)
      as (st' & agent' & out & -> & Hlt).
    eexists. split; [done|]. unfold work_left, main_weight. simpl.
    rewrite length_insert.
    pose proof (weight_insert _ _ _ {| fut_agent := fut_agent f; fut_stage := st' |} Hj)
      as Hw.
    assert (task_weight f = S (length chunks)) as Hwf
      by (unfold task_weight; by rewrite Hst).
    specialize (Hlt (fut_agent f)). lia. }
  apply list_find_None in Hrun.
  destruct (first_queued (futures s)) as [j|] eqn:Hq.
  { (* the first queued task starts, and its runtime call fails *)
    pose proof Hq as Hq'. apply first_queued_spec in Hq' as (f & Hj & Hqueued).
    destruct (future_registered _ _ _ _ _ Hinv Hj) as [agent Hagent].
    exists (WorkerStart (ChatRaises (Exn RuntimeFailure []))). simpl. rewrite Hq. simpl.
    rewrite running_none by done. rewrite decide_True by (unfold max_workers; lia).
    unfold worker_step. rewrite Hj. simpl. rewrite Hagent. simpl.
    destruct (task_start_raises (Exn RuntimeFailure []) message cs agent)
      as (agent' & out & ->).
    eexists. split; [done|]. unfold work_left, main_weight. simpl.
    rewrite length_insert.
    pose proof (weight_insert _ _ _ {| fut_agent := fut_agent f; fut_stage := Finished |} Hj)
      as Hw.
    assert (task_weight f = 1) as Hwf.
    { unfold is_queued in Hqueued. unfold task_weight. by destruct (fut_stage f). }
    assert (task_weight {| fut_agent := fut_agent f; fut_stage := Finished |} = 0)
      as Hwf' by done.
    lia. }
  (* all tasks have finished: the main thread moves *)
  apply first_queued_None in Hq.
  assert (∀ i f, futures s !! i = Some f → is_finished f = true) as Hfin.
  { intros i f Hi.
    pose proof (proj1 (Forall_lookup _ _) Hrun _ _ Hi) as H1.
    pose proof (proj1 (Forall_lookup _ _) Hq _ _ Hi) as H2. simpl in *.
    unfold is_running, is_queued, is_finished in *. by destruct (fut_stage f). }
  exists MainStep. simpl. unfold main_step, work_left, main_weight.
  destruct Hinv as [_ Hinv].
  destruct (pc s) as [|[|n todo]|i|] eqn:Epc; [| | | |done].
  - destruct Hinv as [Hf _]. eexists. split; [done|]. simpl. rewrite Hf. simpl. lia.
  - eexists. split; [done|]. simpl. lia.
  - destruct (registry s !! n); eexists; (split; [done|]); simpl.
    + rewrite sum_list_with_app, length_app. simpl. lia.
    + lia.
  - destruct (futures s !! i) as [f|] eqn:Hi.
    + rewrite (Hfin _ _ Hi). eexists. split; [done|]. simpl.
      apply lookup_lt_Some in Hi. lia.
    + eexists. split; [done|]. simpl. lia.
Qed.

(** So every dispatch can be run to its return. *)
Lemma dispatch_can_return reg0 message cs names s :
  dispatch_inv reg0 names s →
  ∃ schedule s', run message cs names schedule s = Some s' ∧ pc s' = Returned.
Proof.
  remember (work_left names s) as n eqn:Hn. revert s Hn.
  induction n as [n IH] using lt_wf_ind. intros s -> Hinv.
  destruct (decide (pc s = Returned)) as [Hpc|Hpc].
  { by exists [], s. }
  destruct (dispatch_progress _ message cs _ _ Hinv Hpc) as (a & s1 & Hexec & Hlt).
  destruct (IH _ Hlt s1 eq_refl) as (schedule & s' & Hrun & Hret).
  { by eapply exec_dispatch_inv. }
  exists (a :: schedule), s'. simpl. rewrite Hexec. by split.
Qed.
End dispatch_facts.

(** C6: whenever [chat_with_agents] has returned, every task that it
    submitted, one for each name of the batch that is in the registry, has
    finished, whether its turn succeeded or failed.  And the call does
    return: every execution can be continued up to its return. *)
Theorem dispatch_returns_after_all_turns :
  (∀ self message agent_names schedule s,
     chat_with_agents self message agent_names schedule = Some s →
     pc s = Returned →
     submitted s = known (agents self) agent_names
     ∧ Forall (λ f, fut_stage f = Finished) (futures s))
  ∧ (∀ self message agent_names schedule s,
       chat_with_agents self message agent_names schedule = Some s →
       ∃ more s',
         chat_with_agents self message agent_names (schedule ++ more) = Some s'
         ∧ pc s' = Returned).
Proof.
  split.
  - intros self message names schedule s Hrun Hpc.
    apply chat_with_agents_inv in Hrun as [_ Hinv].
    rewrite Hpc in Hinv. destruct Hinv as (Hsub & _ & Hfin). split; [done|].
    apply Forall_lookup. intros j f Hf. apply Hfin in Hf.
    unfold is_finished in Hf. by destruct (fut_stage f).
  - intros self message names schedule s Hrun.
    pose proof (chat_with_agents_inv _ _ _ _ _ Hrun) as Hinv.
    unfold chat_with_agents in *.
    destruct (chat_settings_of (config self)) as [|cs]; [done|].
    destruct (dispatch_can_return _ message cs _ _ Hinv) as (more & s' & Hmore & Hret).
    exists more, s'. split; [|done]. by rewrite run_app, Hrun.
Qed.

Lemma dispatch_returns_after_all_turns_witness :
  ∃ s, chat_with_agents one_agent (py "hello") [py "X"; py "ghost"] one_turn_schedule
       = Some s
       ∧ submitted s = known (agents one_agent) [py "X"; py "ghost"]
       ∧ Forall (λ f, fut_stage f = Finished) (futures s).
Proof.
  destruct (chat_with_agents one_agent (py "hello") [py "X"; py "ghost"]
              one_turn_schedule) as [s|] eqn:E; [|by vm_compute in E].
  exists s. split; [done|].
  apply (proj1 dispatch_returns_after_all_turns one_agent (py "hello")
           [py "X"; py "ghost"] one_turn_schedule s E).
  vm_compute in E. by injection E as <-.
Defined.



(** C9, as stated, fails: with the name of a registered agent twice in the
    batch, two tasks are submitted for that agent, and here both are in
    their turn at the same time, each having appended its user entry to the
    one history; when the call has returned, the entries of the two turns
    are interleaved. *)
Lemma duplicate_names_overlap :
  (∃ s, chat_with_agents one_agent (py "hello") [py "X"; py "X"] overlapping_schedule
        = Some s
        ∧ length (invocations (py "X") s) = 2
        ∧ Forall (λ f, is_running f = true) (invocations (py "X") s)
        ∧ (conversation_history <$> registry s !! py "X")
          = Some [ {| role := py "user"; content := py "hello" |};
                   {| role := py "user"; content := py "hello" |} ])
  ∧ (∃ s, chat_with_agents one_agent (py "hello") [py "X"; py "X"]
            (overlapping_schedule ++ overlapping_schedule_end) = Some s
          ∧ pc s = Returned
          ∧ (conversation_history <$> registry s !! py "X")
            = Some [ {| role := py "user"; content := py "hello" |};
                     {| role := py "user"; content := py "hello" |};
                     {| role := py "assistant"; content := py "one" |};
                     {| role := py "assistant"; content := py "two" |} ]).
Proof.
  split.
  - eexists. split; [vm_compute; reflexivity|]. vm_compute.
    split; [done|]. split; [|done]. by repeat constructor.
  - eexists. split; [vm_compute; reflexivity|]. vm_compute. done.
Qed.

(** C9, amended: a dispatch submits one task per occurrence of a registered
    name in [agent_names]; duplicates are neither refused nor merged.  So an
    agent never has more invocations than its name has occurrences, it has
    exactly that many once the loop over the names is over, and it has at
    most one when the caller passes a list without duplicates. *)
Theorem one_invocation_per_occurrence self message agent_names schedule s k :
  chat_with_agents self message agent_names schedule = Some s →
  submitted s `prefix_of` known (agents self) agent_names
  ∧ length (invocations k s) ≤ length (filter (λ n, n = k) agent_names)
  ∧ (pc s = Returned ∨ (∃ i, pc s = Joining i) →
     is_Some (agents self !! k) →
     length (invocations k s) = length (filter (λ n, n = k) agent_names))
  ∧ (NoDup agent_names → length (invocations k s) ≤ 1).
Proof.
  intros Hrun. pose proof (chat_with_agents_inv _ _ _ _ _ Hrun) as Hinv.
  pose proof (dispatch_inv_submitted _ _ _ Hinv) as Hpre.
  split; [done|].
  assert (length (invocations k s) ≤ length (filter (λ n, n = k) agent_names)) as Hle.
  { rewrite invocations_submitted.
    etrans; [by apply filter_length_prefix|]. apply filter_length_known. }
  split; [done|]. split.
  - intros Hpc Hk. rewrite invocations_submitted.
    assert (submitted s = known (agents self) agent_names) as ->.
    { destruct Hinv as [_ Hinv].
      destruct Hpc as [Hpc|[i Hpc]]; rewrite Hpc in Hinv; by destruct Hinv as (? & _). }
    by rewrite filter_known_registered.
  - intros Hnd. etrans; [done|]. by apply filter_length_NoDup.
Qed.

Lemma one_invocation_per_occurrence_witness :
  ∃ s, chat_with_agents one_agent (py "hello") [py "X"; py "ghost"] one_turn_schedule
       = Some s
       ∧ length (invocations (py "X") s) ≤ 1.
Proof.
  destruct (chat_with_agents one_agent (py "hello") [py "X"; py "ghost"]
              one_turn_schedule) as [s|] eqn:E; [|by vm_compute in E].
  exists s. split; [done|].
  apply (one_invocation_per_occurrence one_agent (py "hello")
           [py "X"; py "ghost"] one_turn_schedule s (py "X") E).
  apply NoDup_cons. split; [|apply NoDup_singleton].
  rewrite list_elem_of_singleton. by vm_compute.
Defined.

(** ** The streaming flag *)

Lemma chat_with_model_request_dict model message d :
  chat_with_model_request model message (VDict d)
  = inr {| req_model := VStr model;
           req_messages := [{| role := py "user"; content := message |}];
           req_stream := default (VBool true) (assoc (py "stream") d);
           req_temperature := default default_temperature (assoc (py "temperature") d) |}.
Proof. reflexivity. Qed.

(** C8, as stated, fails for the multi-agent turn: with [stream: false] in
    the settings, the request that [Agent.stream_chat] builds still asks for
    a stream, and the runtime of this example, which answers with the flag
    it was asked with, answers so. *)
Lemma stream_chat_ignores_stream_setting :
  py_get (VDict [(py "stream", VBool false)]) (py "stream") (VBool true)
  = inr (VBool false)
  ∧ req_stream (stream_chat_request (append_message (py "user") (py "hi") mario)
                  default_temperature)
    = VBool true
  ∧ conversation_history
      (stream_chat echo_stream_flag (py "hi")
         (VDict [(py "stream", VBool false)]) (mario, [])).2.1
    = [ {| role := py "user"; content := py "hi" |};
        {| role := py "assistant"; content := py "streamed" |} ].
Proof. split; [done|]. split; [done|]. vm_compute. reflexivity. Qed.

(** C8, amended: the single-agent [chat_with_model] passes the settings'
    [stream] value to the runtime, [True] when the key is absent;
    [Agent.stream_chat] always asks for a stream, whatever the settings
    say.  Each function depends on the runtime only through requests that
    carry that flag. *)
Theorem stream_flag_of_each_chat :
  (∀ model message d,
     ∃ req, chat_with_model_request model message (VDict d) = inr req
            ∧ req_stream req = match assoc (py "stream") d with
                               | Some flag => flag
                               | None => VBool true
                               end)
  ∧ (∀ rt rt' model message d st,
       (∀ req, req_stream req = default (VBool true) (assoc (py "stream") d) →
               rt req = rt' req) →
       chat_with_model rt model message (VDict d) st
       = chat_with_model rt' model message (VDict d) st)
  ∧ (∀ self temperature, req_stream (stream_chat_request self temperature) = VBool true)
  ∧ (∀ rt rt' message chat_settings st,
       (∀ req, req_stream req = VBool true → rt req = rt' req) →
       stream_chat rt message chat_settings st = stream_chat rt' message chat_settings st).
Proof.
  split; [|split; [|split]].
  - intros model message d. rewrite chat_with_model_request_dict.
    eexists. split; [done|]. simpl. by destruct (assoc _ d).
  - intros rt rt' model message d st Hrt. unfold chat_with_model, try_except.
    unfold mbind, Py_bind, bind, lift, ollama_chat.
    rewrite chat_with_model_request_dict. by rewrite Hrt.
  - done.
  - intros rt rt' message cs [self out] Hrt. rewrite !stream_chat_run. cbv zeta.
    unfold turn_result. destruct (py_get cs _ _) as [e|t]; [done|]. by rewrite Hrt.
Qed.

Lemma stream_flag_of_each_chat_witness :
  chat_with_model echo_stream_flag (py "mario-custom") (py "hi")
    (VDict [(py "stream", VBool false)]) (tt, [])
  = chat_with_model (answers [py "complete"]) (py "mario-custom") (py "hi")
      (VDict [(py "stream", VBool false)]) (tt, []).
Proof.
  apply (proj1 (proj2 stream_flag_of_each_chat)).
  intros req Hreq. unfold echo_stream_flag. simpl in Hreq. by rewrite Hreq.
Defined.

(** ** Start-up *)

(** A chat system that the constructor returns has a mapping as its
    configuration, so [chat_with_agents] can read its settings. *)
Lemma init_config_is_dict create file chat_system out :
  MultiAgentChat_init create file = (inr chat_system, out) →
  ∃ d, config chat_system = VDict d
       ∧ chat_settings_of (config chat_system)
         = inr (default (VDict []) (assoc (py "chat_settings") d)).
Proof.
  unfold MultiAgentChat_init.
  destruct (load_config file (tt, [])) as [[e|cfg] [[] out0]]; [done|].
  destruct (setup_agents create cfg (∅, out0)) as [[e|[]] [reg out1]] eqn:E; [done|].
  intros [= <- <-]. simpl.
  unfold setup_agents, mbind, Py_bind, bind, lift in E. simpl in E.
  destruct cfg as [| | | | | |d]; try done. by exists d.
Qed.

Lemma one_agent_init :
  MultiAgentChat_init (λ _ _ _, None) (inr one_agent_config)
  = (inr one_agent, [py "Created agent: X" ++ nl]).
Proof. reflexivity. Qed.

Lemma load_config_failed e :
  load_config (inl e) (tt, [])
  = (inr (VDict []), (tt, [py "Error loading config: " ++ exn_str e ++ nl])).
Proof. reflexivity. Qed.

(** C10: a configuration mapping without ['models'] key, which is what
    [load_config] returns when the file cannot be read or parsed, makes
    [setup_agents] raise [KeyError('models')] out of the constructor and out
    of [main]: [main] ends with that exception without having printed
    ["No agents available. Exiting."], and not through [sys.exit(1)]. *)
Theorem missing_models_key_is_uncaught :
  (∀ e, ∃ out, load_config (inl e) (tt, []) = (inr (VDict []), (tt, out))
               ∧ no_models_key (VDict []))
  ∧ (∀ create file config out,
       load_config file (tt, []) = (inr config, (tt, out)) →
       no_models_key config →
       MultiAgentChat_init create file = (inl (Exn KeyError (py "'models'")), out)
       ∧ main_startup create file = (Uncaught (Exn KeyError (py "'models'")), out)
       ∧ py "No agents available. Exiting." ++ nl ∉ out).
Proof.
  split.
  - intros e. eexists. split; [apply load_config_failed|]. by exists [].
  - intros create file config out Hload (d & -> & Hd).
    assert (MultiAgentChat_init create file = (inl (Exn KeyError (py "'models'")), out))
      as Hinit.
    { unfold MultiAgentChat_init. rewrite Hload. unfold setup_agents.
      unfold mbind, Py_bind, bind, lift. simpl. by rewrite Hd. }
    split; [done|]. split.
    + unfold main_startup. by rewrite Hinit.
    + destruct file as [e|v].
      * rewrite load_config_failed in Hload. injection Hload as _ <-.
        rewrite list_elem_of_singleton. intros H.
        apply (f_equal (λ l : pystr, head l)) in H. done.
      * injection Hload as _ <-. by apply not_elem_of_nil.
Qed.

Lemma missing_models_key_is_uncaught_witness :
  main_startup (λ _ _ _, None)
    (inl (Exn OSError (py "[Errno 2] No such file or directory: 'config.yaml'")))
  = (Uncaught (Exn KeyError (py "'models'")),
     [py "Error loading config: [Errno 2] No such file or directory: 'config.yaml'"
      ++ nl]).
Proof.
  apply (proj2 missing_models_key_is_uncaught (λ _ _ _, None)
           (inl (Exn OSError (py "[Errno 2] No such file or directory: 'config.yaml'")))
           (VDict [])).
  - reflexivity.
  - by exists [].
Defined.

(** ** The sanitizer *)

(** C2, as stated, fails: removing the inner span of this text puts the two
    halves of an opening marker together, so the first pass returns
    [<think>y</think>], and a second pass removes that as well. *)
Lemma clean_twice_differs :
  get_clean_response spliced_input = py "<think>y</think>"
  ∧ get_clean_response (get_clean_response spliced_input) = []
  ∧ get_clean_response (get_clean_response spliced_input)
    ≠ get_clean_response spliced_input.
Proof. vm_compute. by repeat split. Qed.

(** C2, amended: cleaning a second time changes nothing exactly when the
    cleaned text contains no complete [<think>...</think>] span. *)
Theorem clean_idempotent_iff x :
  get_clean_response (get_clean_response x) = get_clean_response x
  ↔ has_span (get_clean_response x) = false.
Proof.
  set (t := get_clean_response x). split.
  - unfold get_clean_response. intros Heq.
    destruct (has_span t) eqn:E; [exfalso|done].
    apply re_sub_span_shrinks in E. pose proof (strip_length (re_sub t)) as Hlen.
    rewrite Heq in Hlen. lia.
  - intros E. unfold get_clean_response at 1. rewrite (re_sub_no_span _ E).
    apply strip_idemp.
Qed.

Lemma clean_idempotent_iff_witness :
  get_clean_response (get_clean_response (py "a<think>secret</think>b"))
  = get_clean_response (py "a<think>secret</think>b").
Proof.
  apply (proj2 (clean_idempotent_iff (py "a<think>secret</think>b"))).
  vm_compute. reflexivity.
Defined.

(** C3, as stated, fails on nested markers: the outer span of this text is
    well formed and contains an inner one, yet only the part up to the inner
    closing marker is removed. *)
Lemma clean_nested_keeps_tail :
  get_clean_response nested_input = py "c</think>d"
  ∧ get_clean_response nested_input ≠ py "d".
Proof. vm_compute. by split. Qed.

(** C3, amended: [clean] removes each span that runs from an opening marker
    to the first closing marker after it, whatever is in between (white
    space, line ends, further opening markers), goes on after that closing
    marker, and trims white space at both ends; markers are not balanced.
    For ["a<think>secret</think>b"] the result is ["ab"]. *)
Theorem clean_removes_first_close_spans :
  (∀ pre body post,
     contains think_open pre = false →
     contains think_close body = false →
     get_clean_response (pre ++ think_open ++ body ++ think_close ++ post)
     = strip (pre ++ re_sub post))
  ∧ (∀ x, get_clean_response x = []
          ∨ (starts_solid (get_clean_response x) ∧ ends_solid (get_clean_response x)))
  ∧ get_clean_response (py "a<think>secret</think>b") = py "ab".
Proof.
  split; [|split].
  - intros pre body post Hpre Hbody. unfold get_clean_response.
    by rewrite re_sub_span.
  - intros x. apply strip_trimmed.
  - vm_compute. reflexivity.
Qed.

Lemma clean_removes_first_close_spans_witness :
  get_clean_response
    (py " a" ++ think_open ++ py "x <think> y" ++ think_close ++ py "b ")
  = strip (py " a" ++ re_sub (py "b ")).
Proof.
  apply (proj1 clean_removes_first_close_spans (py " a") (py "x <think> y") (py "b "));
    vm_compute; reflexivity.
Defined.

(** C4, as stated, fails: an opening marker that is never closed is kept. *)
Lemma clean_keeps_unterminated :
  get_clean_response unterminated_input = py "a<think>b"
  ∧ get_clean_response unterminated_input ≠ py "a".
Proof. vm_compute. by split. Qed.

(** C4, amended: an opening marker with no closing marker after it is left
    in place together with the text that follows it; only spans before it
    are removed and white space at both ends is trimmed.  Nothing fails. *)
Theorem clean_unterminated_stays pre rest :
  contains think_close rest = false →
  get_clean_response (pre ++ think_open ++ rest)
  = lstrip (re_sub pre) ++ think_open ++ rstrip rest.
Proof.
  intros Hrest. unfold get_clean_response. rewrite re_sub_unterminated by done.
  by apply strip_around.
Qed.

Lemma clean_unterminated_stays_witness :
  get_clean_response (py " <think>x</think>a" ++ think_open ++ py "b ")
  = lstrip (re_sub (py " <think>x</think>a")) ++ think_open ++ rstrip (py "b ").
Proof.
  apply (clean_unterminated_stays (py " <think>x</think>a") (py "b ")).
  vm_compute. reflexivity.
Defined.


(** * More of the code *)

(** ** The sanitizer never adds text *)

Section sanitizer_more.
Implicit Types (p s r x : pystr).

Lemma strip_prefix_suffix p s r : strip_prefix p s = Some r → r `suffix_of` s.
Proof. intros ->%strip_prefix_spec. by exists p. Qed.

Lemma find_after_suffix p s r : find_after p s = Some r → r `suffix_of` s.
Proof.
  revert r; induction s as [|c s IH]; intros r; cbn [find_after].
  - destruct (strip_prefix p []) eqn:E; [|done]. intros [= <-].
    by eapply strip_prefix_suffix.
  - destruct (strip_prefix p (c :: s)) eqn:E.
    + intros [= <-]. by eapply strip_prefix_suffix.
    + intros Hr%IH. by apply suffix_cons_r.
Qed.

Lemma think_match_suffix s r : think_match s = Some r → r `suffix_of` s.
Proof.
  unfold think_match. destruct (strip_prefix think_open s) as [body|] eqn:E; [|done].
  intros Hr%find_after_suffix. apply strip_prefix_suffix in E. by etrans.
Qed.

Lemma suffix_sublist_of s r : r `suffix_of` s → r `sublist_of` s.
Proof. intros [k ->]. by apply sublist_inserts_l. Qed.

Lemma re_sub_sublist s : re_sub s `sublist_of` s.
Proof.
  induction s as [|c s r E IH|c s E IH] using re_sub_scan_ind.
  - by rewrite re_sub_equation_1.
  - rewrite (re_sub_match _ _ _ E). etrans; [done|].
    by apply suffix_sublist_of, think_match_suffix.
  - rewrite (re_sub_nomatch _ _ E). by apply sublist_skip.
Qed.

Lemma lstrip_suffix s : lstrip s `suffix_of` s.
Proof.
  induction s as [|c s IH]; simpl; [done|].
  destruct (isspace c); [by apply suffix_cons_r|done].
Qed.

Lemma rstrip_prefix s : rstrip s `prefix_of` s.
Proof.
  unfold rstrip. destruct (lstrip_suffix (rev s)) as [k Hk].
  exists (rev k). rewrite <- rev_app_distr, <- Hk. by rewrite rev_involutive.
Qed.

Lemma strip_sublist s : strip s `sublist_of` s.
Proof.
  unfold strip. etrans; [|apply suffix_sublist_of, lstrip_suffix].
  destruct (rstrip_prefix (lstrip s)) as [k Hk]. rewrite Hk at 2.
  by apply sublist_inserts_r.
Qed.

(** A text without opening marker has no span. *)
Lemma no_open_no_span s : find_after think_open s = None → has_span s = false.
Proof.
  induction s as [|c s IH]; [done|]. intros Hs. cbn [has_span].
  apply find_after_None_cons in Hs as [Hhd Hs].
  unfold think_match. rewrite Hhd. by apply IH.
Qed.
End sanitizer_more.

(** X1: the cleaned response is the response with some characters left
    out: [get_clean_response] never adds, changes or reorders a character,
    and its result is never longer than its argument. *)
Theorem clean_only_removes x :
  get_clean_response x `sublist_of` x
  ∧ length (get_clean_response x) ≤ length x.
Proof.
  assert (get_clean_response x `sublist_of` x) as Hsub.
  { unfold get_clean_response. etrans; [apply strip_sublist|apply re_sub_sublist]. }
  split; [done|]. by apply sublist_length.
Qed.

(** X2: a response without the opening marker [<think>] is only trimmed,
    whatever else it contains (closing markers included). *)
Theorem clean_without_opening_marker x :
  contains think_open x = false → get_clean_response x = strip x.
Proof.
  intros Hx%contains_false. unfold get_clean_response.
  by rewrite re_sub_no_span by by apply no_open_no_span.
Qed.

Lemma clean_without_opening_marker_witness :
  get_clean_response (py "  done</think> <b>ok</b> ") = strip (py "  done</think> <b>ok</b> ").
Proof.
  apply (clean_without_opening_marker (py "  done</think> <b>ok</b> ")).
  vm_compute. reflexivity.
Defined.

(** ** Turns of one agent, continued *)

(** The number of calls of a sequence that succeed. *)
Fixpoint successes (calls : list Call) (st : Agent * list pystr) : nat :=
  match calls with
  | [] => 0
  | c :: calls' =>
      (if converse_succeeds c st then 1 else 0) + successes calls' (converse c st).2
  end.

(** The roles that [stream_chat] writes. *)
Definition chat_role (m : Message) : Prop :=
  role m = py "user" ∨ role m = py "assistant".

Section agent_more.
Implicit Types (self : Agent) (out : list pystr) (rt : Runtime).

Lemma converse_all_returns calls st : (converse_all calls st).1 = inr tt.
Proof.
  revert st; induction calls as [|c calls IH]; intros st; [done|].
  cbn [converse_all]. unfold mbind, Py_bind, bind.
  pose proof (stream_chat_returns (call_runtime c) (call_message c)
                (call_settings c) st) as Hret.
  unfold converse. destruct (stream_chat _ _ _ st) as [r st']. simpl in Hret.
  subst r. apply IH.
Qed.

Lemma converse_all_cons c calls st :
  converse_all (c :: calls) st = converse_all calls (converse c st).2.
Proof.
  cbn [converse_all]. unfold mbind, Py_bind, bind.
  pose proof (stream_chat_returns (call_runtime c) (call_message c)
                (call_settings c) st) as Hret.
  unfold converse. destruct (stream_chat _ _ _ st) as [r st']. simpl in Hret.
  by subst r.
Qed.

Lemma converse_history_length c self out :
  length (conversation_history (converse c (self, out)).2.1)
  = length (conversation_history self) + 1
    + (if converse_succeeds c (self, out) then 1 else 0).
Proof.
  rewrite converse_succeeds_run. unfold converse. rewrite stream_chat_run. cbv zeta.
  destruct (turn_result _ _ _ self) as [printed [e|full]]; simpl;
    rewrite ?length_app; simpl; lia.
Qed.

Lemma converse_chat_roles c self out :
  Forall chat_role (conversation_history self) →
  Forall chat_role (conversation_history (converse c (self, out)).2.1).
Proof.
  intros Hh. unfold converse. rewrite stream_chat_run. cbv zeta.
  destruct (turn_result _ _ _ self) as [printed [e|full]]; simpl.
  - apply Forall_app. split; [done|]. apply Forall_singleton. by left.
  - rewrite !Forall_app. split; [split; [done|]|]; apply Forall_singleton.
    + by left.
    + by right.
Qed.

(** A call asks the runtime one thing: a stream for the agent's model, with
    the whole history and the new user entry as the messages. *)
Lemma stream_chat_asks rt rt' message chat_settings self out :
  (∀ req,
     req_model req = model_name self →
     req_messages req
     = conversation_history self ++ [{| role := py "user"; content := message |}] →
     rt req = rt' req) →
  stream_chat rt message chat_settings (self, out)
  = stream_chat rt' message chat_settings (self, out).
Proof.
  intros Hrt. rewrite !stream_chat_run. cbv zeta. unfold turn_result.
  destruct (py_get chat_settings _ _) as [e|t]; [done|]. by rewrite Hrt.
Qed.
End agent_more.

(** X3: a sequence of [stream_chat] calls never raises, and it makes the
    history longer by one entry for every call plus one for every call that
    succeeded: a failed call leaves its user entry behind. *)
Theorem history_length_accounting calls self out :
  (converse_all calls (self, out)).1 = inr tt
  ∧ length (conversation_history (converse_all calls (self, out)).2.1)
    = length (conversation_history self) + length calls + successes calls (self, out).
Proof.
  split; [apply converse_all_returns|].
  revert self out; induction calls as [|c calls IH]; intros self out.
  - simpl. lia.
  - rewrite converse_all_cons. cbn [successes length].
    pose proof (converse_history_length c self out) as Hc.
    destruct (converse c (self, out)) as [r [self' out']]. simpl in *.
    rewrite IH. lia.
Qed.

(** X4: [stream_chat] only ever writes entries with role [user] or
    [assistant]: a history made of such entries stays so through any
    sequence of calls, whatever their outcome. *)
Theorem history_roles_invariant calls self out :
  Forall chat_role (conversation_history self) →
  Forall chat_role (conversation_history (converse_all calls (self, out)).2.1).
Proof.
  revert self out; induction calls as [|c calls IH]; intros self out Hh; [done|].
  rewrite converse_all_cons.
  pose proof (converse_chat_roles c self out Hh) as Hc.
  destruct (converse c (self, out)) as [r [self' out']]. by apply IH.
Qed.

Lemma history_roles_invariant_witness :
  Forall chat_role
    (conversation_history
       (converse_all
          [ {| call_runtime := λ _, ChatRaises (Exn RuntimeFailure (py "down"));
               call_message := py "hello"; call_settings := VDict [] |};
            {| call_runtime := answers [py "hi"];
               call_message := py "hello?"; call_settings := VDict [] |} ]
          (mario, [])).2.1).
Proof.
  apply (history_roles_invariant _ mario []). by apply Forall_nil.
Defined.

(** X5: the context of a turn.  A call depends on the runtime only through
    the request for the agent's model whose messages are the history so far
    followed by the new user entry.  So after a turn that succeeded, the
    next turn sends the previous question and the cleaned reply, not the raw
    one, before the new question. *)
Theorem next_turn_sends_cleaned_reply :
  (∀ rt rt' message chat_settings self out,
     (∀ req,
        req_model req = model_name self →
        req_messages req
        = conversation_history self ++ [{| role := py "user"; content := message |}] →
        rt req = rt' req) →
     stream_chat rt message chat_settings (self, out)
     = stream_chat rt' message chat_settings (self, out))
  ∧ (∀ rt1 rt2 rt2' message1 message2 settings1 settings2 self out temperature chunks,
       py_get settings1 (py "temperature") default_temperature = inr temperature →
       rt1 (stream_chat_request (append_message (py "user") message1 self) temperature)
       = ChatStream chunks None →
       (∀ req,
          req_model req = model_name self →
          req_messages req
          = conversation_history self
            ++ [ {| role := py "user"; content := message1 |};
                 {| role := py "assistant";
                    content := get_clean_response (concat chunks) |};
                 {| role := py "user"; content := message2 |} ] →
          rt2 req = rt2' req) →
       let st := (stream_chat rt1 message1 settings1 (self, out)).2 in
       stream_chat rt2 message2 settings2 st = stream_chat rt2' message2 settings2 st).
Proof.
  split; [apply stream_chat_asks|].
  intros rt1 rt2 rt2' m1 m2 cs1 cs2 self out t chunks Ht Hrt1 Hrt2.
  rewrite stream_chat_run. cbv zeta. unfold turn_result. rewrite Ht, Hrt1. simpl.
  apply stream_chat_asks. intros req Hmodel Hmsgs. apply Hrt2; [done|].
  rewrite Hmsgs. simpl. by rewrite <- !(assoc_L (++)).
Qed.

Lemma next_turn_sends_cleaned_reply_witness :
  let st := (stream_chat (answers [py "<think>hm</think> Wahoo!"]) (py "hi")
               (VDict []) (mario, [])).2 in
  stream_chat
    (λ req, if decide (length (req_messages req) = 3)
            then ChatStream [py "three"] None else ChatRaises (Exn RuntimeFailure []))
    (py "again") (VDict []) st
  = stream_chat (answers [py "three"]) (py "again") (VDict []) st.
Proof.
  apply (proj2 next_turn_sends_cleaned_reply (answers [py "<think>hm</think> Wahoo!"])
           _ _ (py "hi") (py "again") (VDict []) (VDict []) mario []
           default_temperature [py "<think>hm</think> Wahoo!"]).
  - reflexivity.
  - reflexivity.
  - intros req _ Hmsgs. by rewrite Hmsgs.
Defined.

(** X6: chat settings that are not a mapping (an empty [chat_settings:] key
    in the YAML file gives [None]) make every turn fail before the runtime
    is called: the user entry is appended, the [AttributeError] is printed
    as the agent's error, and nothing else happens. *)
Theorem settings_not_a_mapping_fail_every_turn :
  chat_settings_of (VDict [(py "chat_settings", VNone)]) = inr VNone
  ∧ (∀ rt message chat_settings self out,
       (∀ d, chat_settings ≠ VDict d) →
       stream_chat rt message chat_settings (self, out)
       = (inr tt,
          (append_message (py "user") message self,
           out ++ [ nl ++ name self ++ py ": ";
                    py "Error from " ++ name self ++ py ": '"
                    ++ type_name chat_settings
                    ++ py "' object has no attribute 'get'" ++ nl ]))).
Proof.
  split; [done|]. intros rt message cs self out Hcs.
  rewrite stream_chat_run. cbv zeta. unfold turn_result.
  destruct cs as [| | | | | |d]; try reflexivity. by destruct (Hcs d).
Qed.

Lemma settings_not_a_mapping_fail_every_turn_witness :
  stream_chat (answers [py "never asked"]) (py "hi") VNone (mario, [])
  = (inr tt,
     (append_message (py "user") (py "hi") mario,
      [ nl ++ py "mario: ";
        py "Error from mario: 'NoneType' object has no attribute 'get'" ++ nl ])).
Proof.
  apply (proj2 settings_not_a_mapping_fail_every_turn (answers [py "never asked"])
           (py "hi") VNone mario []).
  intros d. discriminate.
Defined.

(** ** The single-agent script, continued *)

Lemma print_stream_run {X} chunks interrupted (st : X * list pystr) :
  print_stream chunks interrupted st
  = (match interrupted with None => inr tt | Some e => inl e end,
     (st.1, st.2 ++ chunks)).
Proof.
  revert st; induction chunks as [|c chunks IH]; intros [x out]; simpl.
  - rewrite (app_nil_r out). by destruct interrupted.
  - unfold mbind, Py_bind, bind, print. simpl. rewrite IH. simpl.
    by rewrite <- (assoc_L (++) out).
Qed.

(** X7: [chat_with_model] never raises and keeps no conversation: with a
    settings mapping it asks the runtime once, with the one user message,
    and prints either the error alone (the call raised), or the header, the
    chunks received and then a blank line (the stream ended) or the error
    (the stream broke).  With settings that are not a mapping it prints the
    [AttributeError] and does not ask the runtime. *)
Theorem chat_with_model_outcomes :
  (∀ rt model message d out,
     chat_with_model rt model message (VDict d) (tt, out)
     = (inr tt,
        (tt,
         out ++
         match rt {| req_model := VStr model;
                     req_messages := [{| role := py "user"; content := message |}];
                     req_stream := default (VBool true) (assoc (py "stream") d);
                     req_temperature :=
                       default default_temperature (assoc (py "temperature") d) |} with
         | ChatRaises e => [py "An error occurred: " ++ exn_str e ++ nl]
         | ChatStream chunks None =>
             [nl ++ py "Model response:" ++ nl] ++ chunks ++ [nl ++ nl]
         | ChatStream chunks (Some e) =>
             [nl ++ py "Model response:" ++ nl] ++ chunks
             ++ [py "An error occurred: " ++ exn_str e ++ nl]
         end)))
  ∧ (∀ rt model message chat_settings out,
       (∀ d, chat_settings ≠ VDict d) →
       chat_with_model rt model message chat_settings (tt, out)
       = (inr tt,
          (tt, out ++ [ py "An error occurred: '" ++ type_name chat_settings
                        ++ py "' object has no attribute 'get'" ++ nl ]))).
Proof.
  split.
  - intros rt model message d out. unfold chat_with_model, try_except.
    unfold mbind, Py_bind, bind at 1. unfold lift at 1.
    rewrite chat_with_model_request_dict. unfold bind at 1. unfold ollama_chat.
    destruct (rt _) as [e|chunks term]; [reflexivity|].
    unfold ret at 1. unfold bind at 1. unfold print at 1. cbn [fst snd].
    unfold bind at 1. rewrite print_stream_run. cbn [fst snd].
    destruct term as [e|]; unfold print; simpl; by rewrite <- !(assoc_L (++) out).
  - intros rt model message cs out Hcs.
    destruct cs as [| | | | | |d]; try reflexivity. by destruct (Hcs d).
Qed.

Lemma chat_with_model_outcomes_witness :
  chat_with_model echo_stream_flag (py "mario-custom") (py "hi") (VList []) (tt, [])
  = (inr tt,
     (tt, [py "An error occurred: 'list' object has no attribute 'get'" ++ nl])).
Proof.
  apply (proj2 chat_with_model_outcomes echo_stream_flag (py "mario-custom")
           (py "hi") (VList []) []).
  intros d. discriminate.
Defined.

(** *** [create_custom_model] *)

(** What [create_custom_model] does: it returns a model name, or its
    [except] clause fails on [return base_model]. *)
Inductive CustomModel :=
  | ModelName (v : pyval)
  | UnboundLocalError.

Section custom_model.
(** [str(v)] for a configuration value that is not a string. *)
Variable repr : pyval → pystr.

(** [str(v)], as an f-string applies it. *)
Definition py_str (v : pyval) : pystr :=
  match v with
  | VStr s => s
  | _ => repr v
  end.

(** The [try] block of [create_custom_model]; the state is the local
    variable [base_model], unbound at first. *)
Definition create_custom_model_body (create : CreateRuntime) (config : pyval)
    (model_key : pystr) : Py (option pyval) pyval :=
  models ← lift (py_getitem config (py "models"));
  model_config ← lift (py_getitem models model_key);
  base_model ← lift (py_getitem model_config (py "base_model"));
  modify (λ _, Some base_model);;
  custom_name ← lift (py_getitem model_config (py "custom_name"));
  system_prompt ← lift (py_getitem model_config (py "system_prompt"));
  print (py "Creating custom model '" ++ py_str custom_name ++ py "' from "
         ++ py_str base_model ++ py "..." ++ nl);;
  match create custom_name base_model system_prompt with
  | Some e => raise e
  | None => ret tt
  end;;
  print (py "Custom model '" ++ py_str custom_name ++ py "' created successfully!" ++ nl);;
  ret custom_name.

(** [create_custom_model] of [chat_with_model.py] *)
Definition create_custom_model (create : CreateRuntime) (config : pyval)
    (model_key : pystr) (out : list pystr) : CustomModel * list pystr :=
  match create_custom_model_body create config model_key (None, out) with
  | (inr custom_name, (_, out')) => (ModelName custom_name, out')
  | (inl e, (base_model, out')) =>
      let out'' := out' ++ [py "Error creating custom model: " ++ exn_str e ++ nl] in
      match base_model with
      | Some name => (ModelName name, out'')
      | None => (UnboundLocalError, out'')
      end
  end.

(** [config['models'][model_key][field]] *)
Definition persona_field (config : pyval) (model_key field : pystr) : exn + pyval :=
  match py_getitem config (py "models") with
  | inl e => inl e
  | inr models =>
      match py_getitem models model_key with
      | inl e => inl e
      | inr model_config => py_getitem model_config field
      end
  end.

(** X8: for a key made of characters below U+0100, [create_custom_model]
    returns the custom name when the persona has its three fields and the
    runtime creates the model; it falls back to the base model when the
    persona has a base model but something after that fails; and when the
    persona or its base model cannot be found, the fallback itself fails:
    the error is printed (for a missing key, the [repr] of the key), the
    runtime is not called and [UnboundLocalError] leaves the function. *)
Theorem create_custom_model_outcomes create config model_key out :
  Forall (λ c, (c < 256)%N) model_key →
  match persona_field config model_key (py "base_model") with
  | inl e =>
      create_custom_model create config model_key out
      = (UnboundLocalError, out ++ [py "Error creating custom model: " ++ exn_str e ++ nl])
  | inr base_model =>
      ∃ out',
        create_custom_model create config model_key out
        = (ModelName
             match persona_field config model_key (py "custom_name"),
                   persona_field config model_key (py "system_prompt") with
             | inr custom_name, inr system_prompt =>
                 match create custom_name base_model system_prompt with
                 | None => custom_name
                 | Some _ => base_model
                 end
             | _, _ => base_model
             end, out')
  end.
Proof.
  intros _.
  unfold persona_field, create_custom_model, create_custom_model_body.
  unfold mbind, Py_bind, bind, lift, modify, print, raise, ret. cbn [fst snd].
  destruct (py_getitem config (py "models")) as [e|models]; [done|].
  destruct (py_getitem models model_key) as [e|mc]; [done|].
  destruct (py_getitem mc (py "base_model")) as [e|b]; [done|].
  destruct (py_getitem mc (py "custom_name")) as [e|c]; [by eexists|].
  destruct (py_getitem mc (py "system_prompt")) as [e|sp]; [by eexists|].
  destruct (create c b sp); by eexists.
Qed.
End custom_model.

Lemma create_custom_model_outcomes_witness :
  create_custom_model (λ _, py "?") (λ _ _ _, None) one_agent_config (py "o'brien") []
  = (UnboundLocalError,
     [py "Error creating custom model: " ++ [34%N] ++ py "o'brien" ++ [34%N] ++ nl]).
Proof.
  apply (create_custom_model_outcomes (λ _, py "?") (λ _ _ _, None)
           one_agent_config (py "o'brien") []).
  vm_compute. repeat constructor.
Defined.

(** ** Setting up the agents *)

(** The agent that one pass of the loop of [setup_agents] registers, or the
    exception it reports. *)
Definition persona_agent (create : CreateRuntime) (model_key : pystr)
    (model_config : pyval) : exn + Agent :=
  match py_getitem model_config (py "custom_name") with
  | inl e => inl e
  | inr custom_name =>
      match py_getitem model_config (py "base_model") with
      | inl e => inl e
      | inr base_model =>
          match py_getitem model_config (py "system_prompt") with
          | inl e => inl e
          | inr system =>
              match create custom_name base_model system with
              | Some e => inl e
              | None => inr (new_agent model_key custom_name system)
              end
          end
      end
  end.

Definition persona_fails (create : CreateRuntime) (item : pystr * pyval) : Prop :=
  ∃ e, persona_agent create item.1 item.2 = inl e.

Section setup.
Implicit Types (reg : gmap pystr Agent) (items : list (pystr * pyval)).

Lemma setup_agent_body_run create k mc reg out :
  setup_agent_body create k mc (reg, out)
  = match persona_agent create k mc with
    | inr agent =>
        (inr tt, (<[k := agent]> reg, out ++ [py "Created agent: " ++ k ++ nl]))
    | inl e => (inl e, (reg, out))
    end.
Proof.
  unfold setup_agent_body, persona_agent.
  unfold mbind, Py_bind, bind, lift, modify, print, raise. cbn [fst snd].
  destruct (py_getitem mc (py "custom_name")) as [e|c]; [done|].
  destruct (py_getitem mc (py "base_model")) as [e|b]; [done|].
  destruct (py_getitem mc (py "system_prompt")) as [e|sp]; [done|].
  by destruct (create c b sp).
Qed.

(** The loop never raises; it leaves a registry [reg'] and one more line
    of output for each persona. *)
Lemma setup_agents_loop_run create items reg out :
  ∃ reg' lines,
    setup_agents_loop create items (reg, out) = (inr tt, (reg', out ++ lines))
    ∧ length lines = length items
    ∧ (∀ k a, reg' !! k = Some a →
              reg !! k = Some a
              ∨ ∃ mc, (k, mc) ∈ items ∧ persona_agent create k mc = inr a)
    ∧ (∀ k, is_Some (reg !! k) → is_Some (reg' !! k))
    ∧ (∀ k mc a, (k, mc) ∈ items → persona_agent create k mc = inr a →
                 is_Some (reg' !! k)).
Proof.
  revert reg out; induction items as [|[k mc] items IH]; intros reg out.
  - exists reg, []. simpl. rewrite (app_nil_r out).
    split; [done|]. split; [done|]. split; [by left|]. split; [done|].
    intros k mc a Hin. by apply elem_of_nil in Hin.
  - cbn [setup_agents_loop]. unfold mbind, Py_bind, bind at 1. unfold try_except.
    rewrite setup_agent_body_run.
    destruct (persona_agent create k mc) as [e|agent] eqn:Hk.
    + unfold mbind, bind, print. cbn [fst snd].
      set (line := py "Error creating agent " ++ k ++ py ": " ++ exn_str e ++ nl).
      destruct (IH reg (out ++ [line]))
        as (reg' & lines & -> & Hlen & Hfrom & Hmono & Hto).
      exists reg', (line :: lines). rewrite <- (assoc_L (++) out). split; [done|].
      split; [simpl; lia|]. split; [|split; [done|]].
      * intros k' a Ha. destruct (Hfrom _ _ Ha) as [?|(mc' & Hin & ?)]; [by left|].
        right. exists mc'. split; [by apply elem_of_cons; right|done].
      * intros k' mc' a [[= -> ->]|Hin]%elem_of_cons Hp; [congruence|by eapply Hto].
    + set (line := py "Created agent: " ++ k ++ nl).
      destruct (IH (<[k := agent]> reg) (out ++ [line]))
        as (reg' & lines & -> & Hlen & Hfrom & Hmono & Hto).
      exists reg', (line :: lines). rewrite <- (assoc_L (++) out). split; [done|].
      split; [simpl; lia|]. split; [|split].
      * intros k' a Ha. destruct (Hfrom _ _ Ha) as [Hin|(mc' & Hin & ?)].
        -- destruct (decide (k = k')) as [<-|Hne].
           ++ rewrite lookup_insert_eq in Hin. injection Hin as <-.
              right. exists mc. split; [by apply elem_of_cons; left|done].
           ++ rewrite lookup_insert_ne in Hin by done. by left.
        -- right. exists mc'. split; [by apply elem_of_cons; right|done].
      * intros k' Hk'. apply Hmono. destruct (decide (k = k')) as [<-|Hne].
        -- rewrite lookup_insert_eq. by eexists.
        -- by rewrite lookup_insert_ne.
      * intros k' mc' a [[= -> ->]|Hin]%elem_of_cons Hp; [|by eapply Hto].
        apply Hmono. rewrite lookup_insert_eq. by eexists.
Qed.

Lemma persona_agent_new create k mc a :
  persona_agent create k mc = inr a → name a = k ∧ conversation_history a = [].
Proof.
  unfold persona_agent.
  destruct (py_getitem mc (py "custom_name")) as [e|c]; [done|].
  destruct (py_getitem mc (py "base_model")) as [e|b]; [done|].
  destruct (py_getitem mc (py "system_prompt")) as [e|sp]; [done|].
  destruct (create c b sp); [done|]. by intros [= <-].
Qed.

Lemma init_run create d items :
  assoc (py "models") d = Some (VDict items) →
  ∃ reg lines,
    MultiAgentChat_init create (inr (VDict d))
    = (inr {| config := VDict d; agents := reg |}, lines)
    ∧ length lines = length items
    ∧ (∀ k a, reg !! k = Some a →
              ∃ mc, (k, mc) ∈ items ∧ persona_agent create k mc = inr a)
    ∧ (∀ k mc a, (k, mc) ∈ items → persona_agent create k mc = inr a →
                 is_Some (reg !! k)).
Proof.
  intros Hd. unfold MultiAgentChat_init, load_config, try_except, lift. cbn [fst snd].
  unfold setup_agents, mbind, Py_bind, bind, lift. simpl. rewrite Hd. simpl.
  destruct (setup_agents_loop_run create items ∅ [])
    as (reg & lines & -> & Hlen & Hfrom & _ & Hto).
  exists reg, lines. split; [done|]. split; [done|]. split; [|done].
  intros k a Ha. by destruct (Hfrom _ _ Ha) as [?|?].
Qed.
End setup.

(** X9: for a configuration with a ['models'] mapping the constructor
    returns a chat system, whatever happens to the single personas, and
    prints one line for each of them.  Every registered agent is stored
    under its own name, has an empty history, and comes from a persona that
    had its three fields and that the runtime created; and every such
    persona has an agent registered under its key. *)
Theorem setup_registers_created_personas create d items :
  assoc (py "models") d = Some (VDict items) →
  ∃ reg lines,
    MultiAgentChat_init create (inr (VDict d))
    = (inr {| config := VDict d; agents := reg |}, lines)
    ∧ length lines = length items
    ∧ (∀ k a, reg !! k = Some a →
              name a = k ∧ conversation_history a = []
              ∧ ∃ mc, (k, mc) ∈ items ∧ persona_agent create k mc = inr a)
    ∧ (∀ k mc a, (k, mc) ∈ items → persona_agent create k mc = inr a →
                 is_Some (reg !! k)).
Proof.
  intros Hd. destruct (init_run create d items Hd) as (reg & lines & Hinit & Hlen & Hfrom & Hto).
  exists reg, lines. split; [done|]. split; [done|]. split; [|done].
  intros k a Ha. destruct (Hfrom _ _ Ha) as (mc & Hin & Hp).
  destruct (persona_agent_new _ _ _ _ Hp). eauto.
Qed.

(** The personas and the top-level entries of [one_agent_config]. *)
Definition one_agent_personas : list (pystr * pyval) :=
  [ (py "X",
     VDict [ (py "base_model", VStr (py "llama3"));
             (py "custom_name", VStr (py "x-custom"));
             (py "system_prompt", VStr (py "You are X.")) ]) ].
Definition one_agent_entries : list (pystr * pyval) :=
  [ (py "models", VDict one_agent_personas);
    (py "chat_settings", VDict [ (py "temperature", VFloat (1 # 2)) ]) ].

Lemma setup_registers_created_personas_witness :
  ∃ reg lines,
    MultiAgentChat_init (λ _ _ _, None) (inr one_agent_config)
    = (inr {| config := one_agent_config; agents := reg |}, lines)
    ∧ length lines = 1.
Proof.
  destruct (setup_registers_created_personas (λ _ _ _, None)
              one_agent_entries one_agent_personas eq_refl)
    as (reg & lines & Hinit & Hlen & _).
  exists reg, lines. split; [exact Hinit|exact Hlen].
Defined.

(** X10: with a ['models'] mapping, [main] exits with status 1 after
    "No agents available. Exiting." exactly when no persona could be set up
    (an empty mapping included); as soon as one could, it goes on to the
    chat with a registry that is not empty. *)
Theorem exit_when_no_persona_was_created create d items :
  assoc (py "models") d = Some (VDict items) →
  (Forall (persona_fails create) items →
   ∃ lines, main_startup create (inr (VDict d))
            = (SysExit 1, lines ++ [py "No agents available. Exiting." ++ nl])
            ∧ length lines = length items)
  ∧ (¬ Forall (persona_fails create) items →
     ∃ chat_system lines,
       main_startup create (inr (VDict d)) = (Ready chat_system, lines)
       ∧ agents chat_system ≠ ∅).
Proof.
  intros Hd. destruct (init_run create d items Hd) as (reg & lines & Hinit & Hlen & Hfrom & Hto).
  unfold main_startup. rewrite Hinit. cbn [agents]. split.
  - intros Hfail. exists lines. split; [|done].
    rewrite decide_True; [done|]. apply map_empty. intros k.
    destruct (reg !! k) as [a|] eqn:Ha; [|done].
    destruct (Hfrom _ _ Ha) as (mc & Hin & Hp).
    rewrite Forall_forall in Hfail. destruct (Hfail _ Hin) as [e He]. simpl in He.
    congruence.
  - intros Hsome. apply not_Forall_Exists in Hsome; [|intros [k mc]; unfold persona_fails;
      simpl; destruct (persona_agent create k mc); [left; by eexists|right; by intros [? ?]]].
    apply Exists_exists in Hsome as ([k mc] & Hin & Hok).
    assert (∃ a, persona_agent create k mc = inr a) as [a Ha].
    { unfold persona_fails in Hok. simpl in Hok.
      destruct (persona_agent create k mc) as [e|a]; [|by eexists].
      destruct Hok. by eexists. }
    destruct (Hto _ _ _ Hin Ha) as [a' Ha'].
    assert (reg ≠ ∅) as Hne by (intros ->; by rewrite lookup_empty in Ha').
    exists {| config := VDict d; agents := reg |}, lines.
    by rewrite decide_False.
Qed.

Lemma exit_when_no_persona_was_created_witness :
  ∃ lines,
    main_startup (λ _ _ _, Some (Exn RuntimeFailure (py "connection refused")))
      (inr one_agent_config)
    = (SysExit 1, lines ++ [py "No agents available. Exiting." ++ nl])
    ∧ length lines = 1.
Proof.
  apply (proj1 (exit_when_no_persona_was_created
                  (λ _ _ _, Some (Exn RuntimeFailure (py "connection refused")))
                  one_agent_entries one_agent_personas eq_refl)).
  apply Forall_singleton. by eexists.
Defined.

(** X11: a configuration file that loads but is not a mapping (an empty
    document gives [None]) makes [main] end with an uncaught [TypeError],
    and a ['models'] value that is not a mapping makes it end with an
    uncaught [AttributeError]; in both cases nothing has been printed. *)
Theorem startup_with_malformed_structure create :
  (∀ v, (∀ d, v ≠ VDict d) →
        ∃ e, main_startup create (inr v) = (Uncaught e, [])
             ∧ exn_kind e = TypeError)
  ∧ (∀ d models,
       assoc (py "models") d = Some models → (∀ items, models ≠ VDict items) →
       main_startup create (inr (VDict d))
       = (Uncaught (Exn AttributeError
                      (py "'" ++ type_name models
                       ++ py "' object has no attribute 'items'")), [])).
Proof.
  split.
  - intros v Hv. unfold main_startup, MultiAgentChat_init, load_config, try_except, lift.
    cbn [fst snd]. unfold setup_agents, mbind, Py_bind, bind, lift. cbn [fst snd].
    destruct v as [| | | | | |d]; try (eexists; split; [reflexivity|done]).
    by destruct (Hv d).
  - intros d models Hd Hm.
    unfold main_startup, MultiAgentChat_init, load_config, try_except, lift.
    cbn [fst snd]. unfold setup_agents, mbind, Py_bind, bind, lift. simpl.
    rewrite Hd. simpl.
    destruct models as [| | | | | |items]; try reflexivity. by destruct (Hm items).
Qed.

Lemma startup_with_malformed_structure_witness :
  ∃ e, main_startup (λ _ _ _, None) (inr VNone) = (Uncaught e, [])
       ∧ exn_kind e = TypeError.
Proof.
  apply (proj1 (startup_with_malformed_structure (λ _ _ _, None)) VNone).
  intros d. discriminate.
Defined.

(** ** Dispatch, continued *)

(** What one step of a task does to its stage and to its agent. *)
Inductive task_effect (message : pystr) : stage → Agent → stage → Agent → Prop :=
  | effect_start agent st' :
      st' ≠ Queued →
      task_effect message Queued agent st' (append_message (py "user") message agent)
  | effect_chunk full content rest interrupted agent :
      task_effect message (Streaming full (content :: rest) interrupted) agent
        (Streaming (full ++ content) rest interrupted) agent
  | effect_reply full agent :
      task_effect message (Streaming full [] None) agent
        Finished (append_message (py "assistant") (get_clean_response full) agent)
  | effect_error full e agent :
      task_effect message (Streaming full [] (Some e)) agent Finished agent.

(** The agent [a0] with [h] appended to its history. *)
Definition extended (a0 : Agent) (h : list Message) : Agent :=
  {| name := name a0; model_name := model_name a0; system_prompt := system_prompt a0;
     conversation_history := conversation_history a0 ++ h |}.

(** The outcomes that the runtime gave to the tasks of a dispatch, in the
    order in which the tasks were started. *)
Definition started (schedule : list action) : list ChatOutcome :=
  omap (λ a, match a with WorkerStart outcome => Some outcome | _ => None end) schedule.

(** The agent of a task in stage [st], from the agent [a0] that the task
    was submitted for and the outcome [o] that the runtime gave to it: a
    task that runs has appended the user entry and is at some point of the
    stream it was given, and a finished task leaves the agent that one call
    of [stream_chat] leaves. *)
Definition task_agent (message : pystr) (chat_settings : pyval) (o : option ChatOutcome)
    (st : stage) (a0 agent : Agent) : Prop :=
  match st with
  | Queued => agent = a0
  | Streaming full_response chunks interrupted =>
      agent = append_message (py "user") message a0
      ∧ ∃ all temperature,
          o = Some (ChatStream all interrupted)
          ∧ py_get chat_settings (py "temperature") default_temperature = inr temperature
          ∧ concat all = full_response ++ concat chunks
  | Finished =>
      ∃ outcome,
        o = Some outcome
        ∧ agent = (stream_chat (λ _, outcome) message chat_settings (a0, [])).2.1
  end.

(** In a batch of distinct names: the tasks are started in the order of
    their submission, the agent of each task is where its task has brought
    it, and the other agents are untouched. *)
Definition turns_inv (message : pystr) (chat_settings : pyval) (reg0 : gmap pystr Agent)
    (outcomes : list ChatOutcome) (s : Dispatch) : Prop :=
  length outcomes ≤ length (futures s)
  ∧ (∀ j f, futures s !! j = Some f → (is_queued f = true ↔ length outcomes ≤ j))
  ∧ (∀ j f a0, futures s !! j = Some f → reg0 !! fut_agent f = Some a0 →
       ∃ agent, registry s !! fut_agent f = Some agent
                ∧ task_agent message chat_settings (outcomes !! j) (fut_stage f) a0 agent)
  ∧ (∀ k a0, reg0 !! k = Some a0 → k ∉ submitted s → registry s !! k = Some a0).

Section dispatch_more.
Implicit Types (s : Dispatch) (f : Future) (agent : Agent) (st : stage).

Lemma task_start_effect outcome message cs agent :
  ∃ st' out,
    task_start outcome message cs (agent, [])
    = (inr st', (append_message (py "user") message agent, out))
    ∧ st' ≠ Queued.
Proof.
  unfold task_start, try_except, report_error.
  unfold mbind, Py_bind, bind, add_message, modify, get, print, lift, ollama_chat, ret.
  simpl. destruct (py_get cs _ _) as [e|t]; simpl; [by do 2 eexists|].
  destruct outcome as [e|chunks term]; simpl; by do 2 eexists.
Qed.

Lemma task_continue_effect message full chunks term agent :
  ∃ st' agent' out,
    task_continue (Streaming full chunks term) (agent, []) = (inr st', (agent', out))
    ∧ task_effect message (Streaming full chunks term) agent st' agent'.
Proof.
  unfold task_continue, report_error.
  unfold mbind, Py_bind, bind, add_message, modify, get, print, ret.
  destruct chunks as [|c chunks]; [destruct term|]; simpl;
    do 3 eexists; (split; [done|]); constructor.
Qed.

(** Every step of a worker, in detail. *)
Lemma exec_worker_effect message cs names a s s' :
  a ≠ MainStep → exec message cs names a s = Some s' →
  ∃ j f agent st' agent' out,
    futures s !! j = Some f
    ∧ registry s !! fut_agent f = Some agent
    ∧ task_effect message (fut_stage f) agent st' agent'
    ∧ (fut_stage f = Queued → running (futures s) < max_workers)
    ∧ s' = {| registry := <[fut_agent f := agent']> (registry s);
              stdout := stdout s ++ map (pair (WorkerThread j)) out;
              futures := <[j := {| fut_agent := fut_agent f; fut_stage := st' |}]>
                           (futures s);
              pc := pc s |}.
Proof.
  intros Ha. destruct a as [|outcome|j]; [done| |]; simpl.
  - destruct (first_queued (futures s)) as [j|] eqn:Hq; [|done]. simpl.
    case_decide as Hcap; [|done]. apply first_queued_spec in Hq as (f & Hf & Hq).
    unfold worker_step. rewrite Hf. simpl.
    destruct (registry s !! fut_agent f) as [agent|] eqn:Hagent; [|done]. simpl.
    destruct (task_start_effect outcome message cs agent) as (st' & out & -> & Hst).
    intros [= <-]. exists j, f, agent, st', (append_message (py "user") message agent), out.
    assert (fut_stage f = Queued) as Hstage.
    { unfold is_queued in Hq. by destruct (fut_stage f). }
    split; [done|]. split; [done|]. split; [|done].
    rewrite Hstage. by constructor.
  - destruct (futures s !! j) as [f|] eqn:Hf; [|done]. simpl.
    destruct (is_running f) eqn:Hr; [|done].
    unfold worker_step. rewrite Hf. simpl.
    destruct (registry s !! fut_agent f) as [agent|] eqn:Hagent; [|done]. simpl.
    unfold is_running in Hr.
    destruct (fut_stage f) as [|full chunks term|] eqn:Hstage; try done.
    destruct (task_continue_effect message full chunks term agent)
      as (st' & agent' & out & -> & Heff).
    intros [= <-]. exists j, f, agent, st', agent', out.
    rewrite Hstage. split; [done|]. split; [done|]. split; [done|]. by split.
Qed.

Lemma main_step_futures names s s' :
  main_step names s = Some s' →
  registry s' = registry s
  ∧ (futures s' = futures s
     ∨ ∃ n, futures s' = futures s ++ [{| fut_agent := n; fut_stage := Queued |}]).
Proof.
  unfold main_step. destruct (pc s) as [|[|n todo]|i|].
  - intros [= <-]. by split; [|left].
  - intros [= <-]. by split; [|left].
  - destruct (registry s !! n); intros [= <-]; simpl; (split; [done|]);
      [right; by exists n|by left].
  - destruct (futures s !! i) as [f|]; [destruct (is_finished f)|];
      intros [= <-]; by split; [|left].
  - done.
Qed.

Lemma append_extended r c a0 h :
  append_message r c (extended a0 h) = extended a0 (h ++ [{| role := r; content := c |}]).
Proof. unfold append_message, extended. simpl. by rewrite <- (assoc_L (++)). Qed.

Lemma extended_nil a0 : extended a0 [] = a0.
Proof. destruct a0. unfold extended. simpl. by rewrite (app_nil_r _). Qed.

End dispatch_more.

Section dispatch_results.
Implicit Types (self : MultiAgentChat) (s : Dispatch) (names : list pystr).

Lemma exec_extended (reg0 : gmap pystr Agent) message cs names a s s' :
  exec message cs names a s = Some s' →
  (∀ k a0, reg0 !! k = Some a0 → ∃ h, registry s !! k = Some (extended a0 h)) →
  ∀ k a0, reg0 !! k = Some a0 → ∃ h, registry s' !! k = Some (extended a0 h).
Proof.
  intros Hexec Hinv k a0 Hk. destruct (Hinv k a0 Hk) as [h Hh].
  assert (a = MainStep ∨ a ≠ MainStep) as [->|Ha]
    by (destruct a; [by left|by right|by right]).
  - apply main_step_keeps in Hexec as [-> _]. by exists h.
  - destruct (exec_worker_effect _ _ _ _ _ _ Ha Hexec)
      as (j & f & agent & st' & agent' & out & Hf & Hagent & Heff & _ & ->).
    simpl. destruct (decide (fut_agent f = k)) as [<-|Hne].
    + rewrite lookup_insert_eq. rewrite Hh in Hagent. injection Hagent as <-.
      inversion Heff; subst; rewrite ?append_extended; by eexists.
    + rewrite lookup_insert_ne by done. by exists h.
Qed.

Lemma run_extended (reg0 : gmap pystr Agent) message cs names schedule s s' :
  run message cs names schedule s = Some s' →
  (∀ k a0, reg0 !! k = Some a0 → ∃ h, registry s !! k = Some (extended a0 h)) →
  ∀ k a0, reg0 !! k = Some a0 → ∃ h, registry s' !! k = Some (extended a0 h).
Proof.
  revert s; induction schedule as [|a schedule IH]; intros s; simpl.
  - by intros [= <-].
  - destruct (exec message cs names a s) as [s1|] eqn:E; [|done]. simpl.
    intros Hrun Hinv. apply (IH s1 Hrun). by eapply exec_extended.
Qed.

End dispatch_results.

Section dispatch_turns.
Implicit Types (s : Dispatch) (f : Future) (agent : Agent) (st : stage).

Lemma first_queued_least fs j i :
  first_queued fs = Some j → i < j → ∃ f, fs !! i = Some f ∧ is_queued f = false.
Proof.
  revert j i; induction fs as [|f fs IH]; intros j i; simpl; [done|].
  destruct (is_queued f) eqn:E.
  - intros [= <-]. lia.
  - destruct (first_queued fs) as [j'|]; [|done]. simpl. intros [= <-] Hi.
    destruct i as [|i]; [by exists f|]. simpl. apply (IH j'); [done|lia].
Qed.

Lemma submitted_NoDup reg names s :
  dispatch_inv reg names s → NoDup names → NoDup (submitted s).
Proof.
  intros [k Hk]%dispatch_inv_submitted Hnd.
  assert (NoDup (known reg names)) as Hkn by (by apply NoDup_filter).
  rewrite Hk in Hkn. by apply NoDup_app in Hkn as [? _].
Qed.

Lemma future_agent_inj s i j f g :
  NoDup (submitted s) → futures s !! i = Some f → futures s !! j = Some g →
  fut_agent f = fut_agent g → i = j.
Proof.
  intros Hnd Hi Hj Hfg. apply (NoDup_lookup _ _ _ (fut_agent f) Hnd).
  - unfold submitted. by rewrite list_lookup_fmap, Hi.
  - unfold submitted. by rewrite list_lookup_fmap, Hj, Hfg.
Qed.

Lemma task_start_stage outcome message cs agent :
  ∃ out,
    task_start outcome message cs (agent, [])
    = (inr match py_get cs (py "temperature") default_temperature, outcome with
           | inr _, ChatStream chunks term => Streaming [] chunks term
           | _, _ => Finished
           end,
       (append_message (py "user") message agent, out)).
Proof.
  unfold task_start, try_except, report_error.
  unfold mbind, Py_bind, bind, add_message, modify, get, print, lift, ollama_chat, ret.
  simpl. destruct (py_get cs _ _) as [e|t]; simpl; [by eexists|].
  destruct outcome as [e|chunks term]; simpl; by eexists.
Qed.

(** The agent that one call of [stream_chat] leaves. *)
Lemma stream_chat_agent outcome message cs a0 out :
  (stream_chat (λ _, outcome) message cs (a0, out)).2.1
  = match py_get cs (py "temperature") default_temperature, outcome with
    | inr _, ChatStream chunks None =>
        append_message (py "assistant") (get_clean_response (concat chunks))
          (append_message (py "user") message a0)
    | _, _ => append_message (py "user") message a0
    end.
Proof.
  rewrite stream_chat_run. cbv zeta. unfold turn_result.
  destruct (py_get cs _ _) as [e|t]; [done|].
  by destruct outcome as [e|chunks [e|]].
Qed.

Lemma exec_worker_start_turn message cs names outcome s s' :
  exec message cs names (WorkerStart outcome) s = Some s' →
  ∃ j f agent out,
    first_queued (futures s) = Some j
    ∧ futures s !! j = Some f
    ∧ fut_stage f = Queued
    ∧ registry s !! fut_agent f = Some agent
    ∧ s' = {| registry := <[fut_agent f := append_message (py "user") message agent]>
                            (registry s);
              stdout := stdout s ++ map (pair (WorkerThread j)) out;
              futures :=
                <[j := {| fut_agent := fut_agent f;
                          fut_stage :=
                            match py_get cs (py "temperature") default_temperature,
                                  outcome with
                            | inr _, ChatStream chunks term => Streaming [] chunks term
                            | _, _ => Finished
                            end |}]> (futures s);
              pc := pc s |}.
Proof.
  simpl. destruct (first_queued (futures s)) as [j|] eqn:Hq; [|done]. simpl.
  case_decide as Hcap; [|done].
  destruct (first_queued_spec _ _ Hq) as (f & Hf & Hqf).
  unfold worker_step. rewrite Hf. simpl.
  destruct (registry s !! fut_agent f) as [agent|] eqn:Hagent; [|done]. simpl.
  destruct (task_start_stage outcome message cs agent) as (out & ->).
  intros [= <-]. exists j, f, agent, out.
  split; [done|]. split; [done|]. split; [|done].
  unfold is_queued in Hqf. by destruct (fut_stage f).
Qed.

Lemma exec_worker_step_turn message cs names j s s' :
  exec message cs names (WorkerStep j) s = Some s' →
  ∃ f full chunks term agent st' agent' out,
    futures s !! j = Some f
    ∧ fut_stage f = Streaming full chunks term
    ∧ registry s !! fut_agent f = Some agent
    ∧ task_effect message (Streaming full chunks term) agent st' agent'
    ∧ s' = {| registry := <[fut_agent f := agent']> (registry s);
              stdout := stdout s ++ map (pair (WorkerThread j)) out;
              futures := <[j := {| fut_agent := fut_agent f; fut_stage := st' |}]>
                           (futures s);
              pc := pc s |}.
Proof.
  simpl. destruct (futures s !! j) as [f|] eqn:Hf; [|done]. simpl.
  destruct (is_running f) eqn:Hr; [|done].
  unfold worker_step. rewrite Hf. simpl.
  destruct (registry s !! fut_agent f) as [agent|] eqn:Hagent; [|done]. simpl.
  unfold is_running in Hr.
  destruct (fut_stage f) as [|full chunks term|] eqn:Hstage; try done.
  destruct (task_continue_effect message full chunks term agent)
    as (st' & agent' & out & -> & Heff).
  intros [= <-]. by exists f, full, chunks, term, agent, st', agent', out.
Qed.

(** A step of the task [j], seen from the invariant. *)
Lemma turns_inv_worker (reg0 : gmap pystr Agent) message cs os os' s j f st' agent' out :
  NoDup (submitted s) →
  turns_inv message cs reg0 os s →
  futures s !! j = Some f →
  st' ≠ Queued →
  length os' ≤ length (futures s) →
  j < length os' →
  (∀ i g, futures s !! i = Some g → i ≠ j →
          (length os ≤ i ↔ length os' ≤ i)
          ∧ (fut_stage g ≠ Queued → os' !! i = os !! i)) →
  (∀ a0 agent, reg0 !! fut_agent f = Some a0 →
               registry s !! fut_agent f = Some agent →
               task_agent message cs (os !! j) (fut_stage f) a0 agent →
               task_agent message cs (os' !! j) st' a0 agent') →
  turns_inv message cs reg0 os'
    {| registry := <[fut_agent f := agent']> (registry s);
       stdout := stdout s ++ map (pair (WorkerThread j)) out;
       futures := <[j := {| fut_agent := fut_agent f; fut_stage := st' |}]> (futures s);
       pc := pc s |}.
Proof.
  intros Hnd (Hlen & Hfifo & Htask & Hrest) Hf Hst Hlen' Hj Hother Hthis.
  pose proof (lookup_lt_Some _ _ _ Hf) as Hjlt.
  unfold turns_inv. cbn [registry futures].
  split; [by rewrite length_insert|]. split; [|split].
  - intros i g Hg. destruct (decide (i = j)) as [->|Hne].
    + rewrite list_lookup_insert_eq in Hg by done. injection Hg as <-.
      unfold is_queued. simpl. split; [by destruct st'|lia].
    + rewrite list_lookup_insert_ne in Hg by done.
      rewrite (Hfifo _ _ Hg). by apply (Hother i g).
  - intros i g a0 Hg Ha0. destruct (decide (i = j)) as [->|Hne].
    + rewrite list_lookup_insert_eq in Hg by done. injection Hg as <-. simpl in *.
      rewrite lookup_insert_eq. exists agent'. split; [done|].
      destruct (Htask _ _ _ Hf Ha0) as (agent & Hagent & Hta). by eapply Hthis.
    + rewrite list_lookup_insert_ne in Hg by done.
      assert (fut_agent g ≠ fut_agent f) as Hgf.
      { intros Heq. by apply Hne, (future_agent_inj s i j g f). }
      rewrite lookup_insert_ne by done.
      destruct (Htask _ _ _ Hg Ha0) as (agent & Hagent & Hta).
      exists agent. split; [done|].
      destruct (fut_stage g) as [|full chunks term|] eqn:Hstage; [done| |].
      * by rewrite (proj2 (Hother i g Hg Hne)) by by rewrite Hstage.
      * by rewrite (proj2 (Hother i g Hg Hne)) by by rewrite Hstage.
  - intros k a0 Hk Hnin.
    assert (submitted {| registry := <[fut_agent f := agent']> (registry s);
                         stdout := stdout s ++ map (pair (WorkerThread j)) out;
                         futures := <[j := {| fut_agent := fut_agent f; fut_stage := st' |}]>
                                      (futures s);
                         pc := pc s |} = submitted s) as Hsub.
    { unfold submitted. cbn [futures]. rewrite list_fmap_insert. simpl.
      apply list_insert_id. by rewrite list_lookup_fmap, Hf. }
    rewrite Hsub in Hnin.
    assert (k ≠ fut_agent f) as Hkf.
    { intros ->. apply Hnin. unfold submitted.
      apply list_elem_of_fmap. exists f. split; [done|]. by eapply list_elem_of_lookup_2. }
    rewrite lookup_insert_ne by done. by apply Hrest.
Qed.

Lemma exec_turns_inv (reg0 reg1 : gmap pystr Agent) message cs names a s s' os :
  NoDup names →
  dispatch_inv reg1 names s →
  exec message cs names a s = Some s' →
  turns_inv message cs reg0 os s →
  turns_inv message cs reg0 (os ++ started [a]) s'.
Proof.
  intros Hnd Hdinv Hexec Hinv.
  pose proof (exec_dispatch_inv _ _ _ _ _ _ _ Hexec Hdinv) as Hdinv'.
  pose proof (submitted_NoDup _ _ _ Hdinv Hnd) as Hnds.
  pose proof (submitted_NoDup _ _ _ Hdinv' Hnd) as Hnds'.
  destruct a as [|outcome|j]; unfold started; cbn [omap list_omap].
  - (* the main thread *)
    rewrite (app_nil_r os). destruct Hinv as (Hlen & Hfifo & Htask & Hrest).
    simpl in Hexec. apply main_step_futures in Hexec as [Hr [Hf|[n Hf]]].
    + unfold turns_inv, submitted. by rewrite Hr, Hf.
    + unfold submitted in Hnds'. rewrite Hf, fmap_app in Hnds'.
      apply NoDup_app in Hnds' as (_ & Hdis & _).
      unfold turns_inv, submitted. rewrite Hr, Hf.
      split; [rewrite length_app; lia|]. split; [|split].
      * intros j f Hj. apply lookup_app_Some in Hj as [Hj|[Hge Hj]]; [by apply Hfifo|].
        apply list_lookup_singleton_Some in Hj as [Hj <-]. unfold is_queued. simpl.
        split; [lia|done].
      * intros j f a0 Hj Ha0.
        apply lookup_app_Some in Hj as [Hj|[Hge Hj]]; [by eapply Htask|].
        apply list_lookup_singleton_Some in Hj as [Hj <-]. simpl in *.
        exists a0. split; [|done]. apply Hrest; [done|].
        intros Hin. apply (Hdis _ Hin). simpl. by left.
      * intros k a0 Hk Hnin. apply Hrest; [done|].
        intros Hin. apply Hnin. rewrite fmap_app. apply elem_of_app. by left.
  - (* a task starts *)
    destruct (exec_worker_start_turn _ _ _ _ _ _ Hexec)
      as (j & f & agent & out & Hq & Hf & Hstage & Hagent & ->).
    pose proof Hinv as (Hlen & Hfifo & Htask & Hrest).
    assert (j = length os) as ->.
    { assert (length os ≤ j) as Hle.
      { apply (Hfifo _ _ Hf). unfold is_queued. by rewrite Hstage. }
      destruct (decide (length os < j)) as [Hlt|]; [|lia].
      destruct (first_queued_least _ _ _ Hq Hlt) as (g & Hg & Hqg).
      assert (is_queued g = true) by by apply (Hfifo _ _ Hg). congruence. }
    pose proof (lookup_lt_Some _ _ _ Hf) as Hjlt.
    apply (turns_inv_worker _ _ _ os); try done.
    + by destruct (py_get cs _ _) as [e|t], outcome as [e'|chunks term].
    + rewrite length_app. simpl. lia.
    + rewrite length_app. simpl. lia.
    + intros i g Hg Hne. split; [rewrite length_app; simpl; lia|].
      intros Hgq. apply lookup_app_l.
      destruct (decide (length os ≤ i)) as [Hge|]; [|lia].
      apply (Hfifo _ _ Hg) in Hge. unfold is_queued in Hge. by destruct (fut_stage g).
    + intros a0 agent0 Ha0 Hagent0. rewrite Hstage. simpl. intros <-.
      rewrite Hagent in Hagent0. injection Hagent0 as <-.
      rewrite list_lookup_middle by done.
      pose proof (stream_chat_agent outcome message cs agent []) as Hsc.
      destruct (py_get cs _ _) as [e|t] eqn:Hget.
      { simpl. by exists outcome. }
      destruct outcome as [e|chunks term].
      { simpl. by exists (ChatRaises e). }
      simpl. split; [done|]. by exists chunks, t.
  - (* a task goes on *)
    rewrite (app_nil_r os).
    destruct (exec_worker_step_turn _ _ _ _ _ _ Hexec)
      as (f & full & chunks & term & agent & st' & agent' & out
          & Hf & Hstage & Hagent & Heff & ->).
    pose proof Hinv as (Hlen & Hfifo & Htask & Hrest).
    apply (turns_inv_worker _ _ _ os); try done.
    + inversion Heff; done.
    + destruct (decide (length os ≤ j)) as [Hge|]; [|lia].
      apply (Hfifo _ _ Hf) in Hge. unfold is_queued in Hge. by rewrite Hstage in Hge.
    + intros a0 agent0 Ha0 Hagent0. rewrite Hstage. simpl.
      rewrite Hagent in Hagent0. injection Hagent0 as <-.
      intros (-> & all & t & Ho & Hget & Hall).
      pose proof (stream_chat_agent (ChatStream all term) message cs a0 []) as Hsc.
      rewrite Hget in Hsc.
      inversion Heff as [|full1 c rest term1 ag|full1 ag|full1 e ag]; subst.
      * simpl. split; [done|]. exists all, t. split; [done|]. split; [done|].
        rewrite Hall. simpl. by rewrite <- (assoc_L (++)).
      * simpl in Hall. rewrite (app_nil_r _) in Hall. rewrite Hall in Hsc.
        simpl. by exists (ChatStream all None).
      * simpl. by exists (ChatStream all (Some e)).
Qed.

Lemma run_turns_inv (reg0 reg1 : gmap pystr Agent) message cs names schedule s s' os :
  NoDup names →
  dispatch_inv reg1 names s →
  run message cs names schedule s = Some s' →
  turns_inv message cs reg0 os s →
  turns_inv message cs reg0 (os ++ started schedule) s'.
Proof.
  intros Hnd. revert s os.
  induction schedule as [|a schedule IH]; intros s os Hdinv Hrun Hinv.
  - simpl in Hrun. injection Hrun as <-. unfold started. simpl. by rewrite (app_nil_r os).
  - simpl in Hrun. destruct (exec message cs names a s) as [s1|] eqn:E; [|done].
    simpl in Hrun.
    assert (started (a :: schedule) = started [a] ++ started schedule) as ->
      by by destruct a.
    rewrite (assoc_L (++)).
    apply (IH s1); [by eapply exec_dispatch_inv|done|].
    by eapply exec_turns_inv.
Qed.
End dispatch_turns.

(** X12: a dispatch changes an agent only by appending to its history.  In
    every state of every execution the registry has the same names as
    before, and each agent has the name, the model and the system prompt it
    had, and its old history followed by new entries. *)
Theorem dispatch_only_appends_history self message agent_names schedule s :
  chat_with_agents self message agent_names schedule = Some s →
  (∀ k, is_Some (registry s !! k) ↔ is_Some (agents self !! k))
  ∧ (∀ k a0, agents self !! k = Some a0 →
       ∃ new,
         registry s !! k
         = Some {| name := name a0; model_name := model_name a0;
                   system_prompt := system_prompt a0;
                   conversation_history := conversation_history a0 ++ new |}).
Proof.
  intros Hrun. split; [by apply chat_with_agents_inv in Hrun as [? _]|].
  unfold chat_with_agents in Hrun.
  destruct (chat_settings_of (config self)) as [|cs]; [done|].
  apply (run_extended (agents self) _ _ _ _ _ _ Hrun).
  intros k a0 Hk. exists []. by rewrite extended_nil.
Qed.

Lemma dispatch_only_appends_history_witness :
  ∃ s, chat_with_agents one_agent (py "hello") [py "X"; py "ghost"] one_turn_schedule
       = Some s
       ∧ ∃ new, registry s !! py "X"
                = Some {| name := py "X"; model_name := VStr (py "x-custom");
                          system_prompt := VStr (py "You are X.");
                          conversation_history := [] ++ new |}.
Proof.
  destruct (chat_with_agents one_agent (py "hello") [py "X"; py "ghost"]
              one_turn_schedule) as [s|] eqn:E; [|by vm_compute in E].
  exists s. split; [done|].
  apply (proj2 (dispatch_only_appends_history one_agent (py "hello")
                  [py "X"; py "ghost"] one_turn_schedule s E) (py "X") agent_x).
  reflexivity.
Defined.

(** X13: when the names of a batch are distinct and the call has returned,
    every registered agent that was named is exactly as one call of
    [stream_chat], by itself, leaves it under the outcome that the runtime
    gave to its task (the tasks are started in the order of the registered
    names): its history has one new turn at the end, the user entry with
    the message, followed by the assistant entry with the cleaned response
    when the [try] block of the turn ran to its end, and by nothing when it
    failed.  Every other agent is unchanged. *)
Theorem distinct_batch_adds_one_turn self message agent_names schedule s :
  chat_with_agents self message agent_names schedule = Some s →
  NoDup agent_names →
  pc s = Returned →
  ∀ k a0, agents self !! k = Some a0 →
    (k ∈ agent_names →
     ∃ i outcome chat_settings,
       known (agents self) agent_names !! i = Some k
       ∧ started schedule !! i = Some outcome
       ∧ chat_settings_of (config self) = inr chat_settings
       ∧ registry s !! k
         = Some (stream_chat (λ _, outcome) message chat_settings (a0, [])).2.1
       ∧ registry s !! k
         = Some (extended a0
                   ({| role := py "user"; content := message |}
                    :: match (turn_result (λ _, outcome) message chat_settings a0).2 with
                       | inr full_response =>
                           [ {| role := py "assistant";
                                content := get_clean_response full_response |} ]
                       | inl _ => []
                       end)))
    ∧ (k ∉ agent_names → registry s !! k = Some a0).
Proof.
  intros Hrun Hnd Hpc k a0 Hk.
  pose proof (chat_with_agents_inv _ _ _ _ _ Hrun) as Hdinv.
  unfold chat_with_agents in Hrun.
  destruct (chat_settings_of (config self)) as [|cs] eqn:Hcs; [done|].
  assert (turns_inv message cs (agents self) (started schedule) s)
    as (Hlen & Hfifo & Htask & Hrest).
  { apply (run_turns_inv (agents self) (agents self) _ _ _ _ _ _ []
             Hnd (enter_dispatch_inv _ _) Hrun).
    split; [done|]. split; [done|]. split; [done|]. by intros. }
  destruct Hdinv as [_ Hdinv]. rewrite Hpc in Hdinv. destruct Hdinv as (Hsub & _ & Hfin).
  split.
  - intros Hin.
    assert (k ∈ known (agents self) agent_names) as Hkn.
    { apply list_elem_of_filter. split; [by eexists|done]. }
    apply list_elem_of_lookup_1 in Hkn as [i Hi]. rewrite <- Hsub in Hi.
    unfold submitted in Hi. rewrite list_lookup_fmap in Hi.
    destruct (futures s !! i) as [f|] eqn:Hf; [|done]. injection Hi as Hfk.
    pose proof (Hfin _ _ Hf) as Hdone. rewrite <- Hfk in Hk.
    destruct (Htask _ _ _ Hf Hk) as (agent & Hagent & Hta).
    unfold is_finished in Hdone.
    destruct (fut_stage f); try done. destruct Hta as (outcome & Ho & ->).
    exists i, outcome, cs. rewrite <- Hsub. unfold submitted.
    rewrite list_lookup_fmap, Hf. rewrite <- Hfk.
    split; [done|]. split; [done|]. split; [done|]. split; [done|].
    rewrite Hagent. f_equal. rewrite stream_chat_run. cbv zeta.
    destruct (turn_result _ _ _ a0) as [printed [e|full]]; simpl.
    + by rewrite <- (extended_nil a0) at 1; rewrite append_extended.
    + rewrite <- (extended_nil a0) at 1. by rewrite !append_extended.
  - intros Hnin. apply Hrest; [done|]. rewrite Hsub.
    intros [_ Hin]%list_elem_of_filter. done.
Qed.

Lemma distinct_batch_adds_one_turn_witness :
  ∃ s, chat_with_agents one_agent (py "hello") [py "X"; py "ghost"] one_turn_schedule
       = Some s
       ∧ registry s !! py "X"
         = Some (extended agent_x
                   [ {| role := py "user"; content := py "hello" |};
                     {| role := py "assistant"; content := py "hi there" |} ]).
Proof.
  destruct (chat_with_agents one_agent (py "hello") [py "X"; py "ghost"]
              one_turn_schedule) as [s|] eqn:E; [|by vm_compute in E].
  exists s. split; [done|].
  destruct (distinct_batch_adds_one_turn one_agent (py "hello")
              [py "X"; py "ghost"] one_turn_schedule s E) with (k := py "X") (a0 := agent_x)
    as [Hnamed _].
  - apply NoDup_cons. split; [|apply NoDup_singleton].
    rewrite list_elem_of_singleton. by vm_compute.
  - vm_compute in E. by injection E as <-.
  - reflexivity.
  - destruct Hnamed as (i & outcome & cs & Hi & Ho & Hcs & _ & Hreg); [by left|].
    destruct i as [|i]; [|by destruct i].
    injection Ho as <-. injection Hcs as <-. exact Hreg.
Defined.

(** ** Choosing the agents *)

(** [s.split(',')] *)
Fixpoint split_comma (s : pystr) : list pystr :=
  match s with
  | [] => [[]]
  | c :: s' =>
      if (c =? 44)%N then [] :: split_comma s'
      else match split_comma s' with
           | [] => [[c]]
           | part :: parts => (c :: part) :: parts
           end
  end.

(** [','.join(parts)] *)
Fixpoint join_comma (parts : list pystr) : pystr :=
  match parts with
  | [] => []
  | [part] => part
  | part :: parts' => part ++ 44%N :: join_comma parts'
  end.

(** [s.lower() == 'all']: [a] and [l] are the lower case of themselves and
    of [A] and [L] only, and [lower] maps no character to the empty string
    or to several of these letters. *)
Definition lower_is_all (s : pystr) : bool :=
  match s with
  | [a; l1; l2] =>
      ((a =? 97) || (a =? 65)) && ((l1 =? 108) || (l1 =? 76))
      && ((l2 =? 108) || (l2 =? 76))
  | _ => false
  end%N.

(** The selection that [main] reads.  [line] is what [input] returns, and
    [keys] is [list(chat_system.agents.keys())]: the names of the agents in
    the order of their registration, which the registry of this development
    does not record. *)
Definition selected_agents (keys : list pystr) (line : pystr) : list pystr :=
  let agent_input := strip line in
  if lower_is_all agent_input then keys
  else strip <$> split_comma agent_input.

Section selection.
Implicit Types (s part : pystr) (parts : list pystr).

Lemma split_comma_not_nil s : split_comma s ≠ [].
Proof.
  destruct s as [|c s]; simpl; [done|].
  destruct (c =? 44)%N; [done|]. by destruct (split_comma s).
Qed.

Lemma join_split_comma s : join_comma (split_comma s) = s.
Proof.
  induction s as [|c s IH]; [done|]. simpl.
  destruct (N.eqb_spec c 44) as [->|Hc].
  - pose proof (split_comma_not_nil s) as Hne.
    cbn [join_comma]. destruct (split_comma s) as [|p ps]; [done|].
    by rewrite IH.
  - pose proof (split_comma_not_nil s) as Hne.
    destruct (split_comma s) as [|p [|p' ps]]; [done| |].
    + simpl in *. by rewrite IH.
    + cbn [join_comma] in *. simpl. by rewrite IH.
Qed.

Lemma split_comma_free s : Forall (λ part, 44%N ∉ part) (split_comma s).
Proof.
  induction s as [|c s IH]; simpl.
  - apply Forall_singleton. apply not_elem_of_nil.
  - destruct (N.eqb_spec c 44) as [->|Hc].
    + apply Forall_cons. split; [apply not_elem_of_nil|done].
    + destruct (split_comma s) as [|p ps]; [apply Forall_singleton|].
      * intros Hin%list_elem_of_singleton. congruence.
      * apply Forall_cons in IH as [Hp Hps]. apply Forall_cons. split; [|done].
        intros [Heq|?]%elem_of_cons; [congruence|done].
Qed.

Lemma split_comma_part part : 44%N ∉ part → split_comma part = [part].
Proof.
  induction part as [|c part IH]; [done|]. intros [Hc Hpart]%not_elem_of_cons.
  simpl. rewrite (proj2 (N.eqb_neq c 44)) by done. by rewrite IH.
Qed.

Lemma split_comma_app part s :
  44%N ∉ part → split_comma (part ++ 44%N :: s) = part :: split_comma s.
Proof.
  induction part as [|c part IH]; [done|]. intros [Hc Hpart]%not_elem_of_cons.
  simpl. rewrite (proj2 (N.eqb_neq c 44)) by done. by rewrite IH.
Qed.

Lemma split_join_comma parts :
  parts ≠ [] → Forall (λ part, 44%N ∉ part) parts →
  split_comma (join_comma parts) = parts.
Proof.
  induction parts as [|p parts IH]; [done|]. intros _ [Hp Hparts]%Forall_cons.
  destruct parts as [|p' parts].
  - by apply split_comma_part.
  - change (join_comma (p :: p' :: parts))
      with (p ++ 44%N :: join_comma (p' :: parts)).
    rewrite split_comma_app by done. by rewrite IH.
Qed.

Lemma strip_comma_free part : 44%N ∉ part → 44%N ∉ strip part.
Proof.
  intros Hpart Hin. apply Hpart.
  by eapply elem_of_sublist; [|apply strip_sublist].
Qed.
Lemma whitespace_comma_free w : Forall (λ c, isspace c = true) w → 44%N ∉ w.
Proof.
  induction 1 as [|c w Hc _ IH]; [apply not_elem_of_nil|].
  apply not_elem_of_cons. split; [|done]. by intros <-.
Qed.

Lemma lstrip_whitespace w s : Forall (λ c, isspace c = true) w → lstrip (w ++ s) = lstrip s.
Proof. induction 1 as [|c w Hc _ IH]; simpl; [done|]. by rewrite Hc. Qed.

Lemma rstrip_whitespace s w : Forall (λ c, isspace c = true) w → rstrip (s ++ w) = rstrip s.
Proof.
  intros Hw. unfold rstrip. rewrite rev_app_distr.
  rewrite lstrip_whitespace; [done|]. by apply Forall_rev.
Qed.

Lemma strip_whitespace_l w s : Forall (λ c, isspace c = true) w → strip (w ++ s) = strip s.
Proof. intros Hw. unfold strip. by rewrite lstrip_whitespace. Qed.

Lemma strip_whitespace_r s w : Forall (λ c, isspace c = true) w → strip (s ++ w) = strip s.
Proof.
  intros Hw. unfold strip. rewrite lstrip_app.
  destruct (forallb isspace s) eqn:E.
  - assert (lstrip s = []) as ->.
    { clear Hw. induction s as [|c s IH]; simpl in *; [done|].
      apply andb_prop in E as [-> E]. by apply IH. }
    rewrite <- (app_nil_r w). by rewrite lstrip_whitespace.
  - by apply rstrip_whitespace.
Qed.

Lemma lstrip_split s : ∃ w, s = w ++ lstrip s ∧ Forall (λ c, isspace c = true) w.
Proof.
  induction s as [|c s (w & Hs & Hw)]; simpl; [by exists []|].
  destruct (isspace c) eqn:E; [|by exists []].
  exists (c :: w). split; [by rewrite Hs at 1|by apply Forall_cons].
Qed.

Lemma rstrip_split s : ∃ w, s = rstrip s ++ w ∧ Forall (λ c, isspace c = true) w.
Proof.
  destruct (lstrip_split (rev s)) as (w & Hs & Hw). exists (rev w).
  split; [|by apply Forall_rev]. unfold rstrip.
  by rewrite <- rev_app_distr, <- Hs, rev_involutive.
Qed.

Lemma split_comma_snoc s w :
  44%N ∉ w →
  ∃ parts part, split_comma s = parts ++ [part]
                ∧ split_comma (s ++ w) = parts ++ [part ++ w].
Proof.
  intros Hw. induction s as [|c s (parts & part & Hs & Hsw)]; simpl.
  - exists [], []. split; [done|]. by apply split_comma_part.
  - rewrite Hs, Hsw. destruct (c =? 44)%N.
    + by exists ([] :: parts), part.
    + destruct parts as [|q parts]; simpl.
      * by exists [], (c :: part).
      * by exists ((c :: q) :: parts), part.
Qed.

(** Trimming the line before it is split changes no name. *)
Lemma split_comma_strip s : strip <$> split_comma (strip s) = strip <$> split_comma s.
Proof.
  transitivity (strip <$> split_comma (lstrip s)).
  - change (strip s) with (rstrip (lstrip s)).
    destruct (rstrip_split (lstrip s)) as (w & Hs & Hw).
    destruct (split_comma_snoc (rstrip (lstrip s)) w (whitespace_comma_free _ Hw))
      as (parts & part & Hp & Hpw).
    rewrite <- Hs in Hpw. rewrite Hp, Hpw, !fmap_app. simpl.
    by rewrite strip_whitespace_r.
  - induction s as [|c s IH]; simpl; [done|].
    destruct (isspace c) eqn:E; [|done]. rewrite IH.
    assert ((c =? 44)%N = false) as ->.
    { apply N.eqb_neq. by intros ->. }
    pose proof (split_comma_not_nil s).
    destruct (split_comma s) as [|part parts]; [done|]. simpl. f_equal.
    symmetry. by apply (strip_whitespace_l [c]), Forall_singleton.
Qed.
End selection.

(** X15: how [main] reads the selection.  When the line, with the white
    space around it removed, is [all] in any mix of cases, every registered
    agent is selected.  Otherwise the line is cut at every comma (splitting
    at commas and joining with commas are inverse to each other) and the
    selected names are the parts with the white space around them removed:
    each name is trimmed and has no comma, and there is always at least
    one.  An empty line selects the one name ['']; typing names separated
    by commas, with any white space around them, selects these names. *)
Theorem selection_splits_and_trims :
  (∀ agent_input, join_comma (split_comma agent_input) = agent_input)
  ∧ (∀ keys before a l1 l2 after,
       Forall (λ c, isspace c = true) before → Forall (λ c, isspace c = true) after →
       a ∈ [97%N; 65%N] → l1 ∈ [108%N; 76%N] → l2 ∈ [108%N; 76%N] →
       selected_agents keys (before ++ [a; l1; l2] ++ after) = keys)
  ∧ (∀ keys line,
       lower_is_all (strip line) = false →
       selected_agents keys line = strip <$> split_comma line
       ∧ selected_agents keys line ≠ []
       ∧ Forall (λ agent_name, strip agent_name = agent_name ∧ 44%N ∉ agent_name)
           (selected_agents keys line))
  ∧ (∀ keys, selected_agents keys [] = [[]])
  ∧ (∀ keys parts,
       parts ≠ [] → Forall (λ part, 44%N ∉ part) parts →
       lower_is_all (strip (join_comma parts)) = false →
       selected_agents keys (join_comma parts) = strip <$> parts).
Proof.
  split; [apply join_split_comma|]. split; [|split; [|split; [done|]]].
  - intros keys before a l1 l2 after Hb Ha Hin Hin1 Hin2. unfold selected_agents.
    rewrite strip_whitespace_l by done.
    rewrite (strip_whitespace_r [a; l1; l2]) by done.
    assert (strip [a; l1; l2] = [a; l1; l2]) as ->.
    { set_unfold. destruct Hin as [->|[->|[]]], Hin1 as [->|[->|[]]],
        Hin2 as [->|[->|[]]]; reflexivity. }
    set_unfold. by destruct Hin as [->|[->|[]]], Hin1 as [->|[->|[]]],
      Hin2 as [->|[->|[]]].
  - intros keys line Hall. unfold selected_agents. rewrite Hall.
    rewrite split_comma_strip. split; [done|]. split.
    + pose proof (split_comma_not_nil line). by destruct (split_comma line).
    + apply Forall_fmap. eapply Forall_impl; [apply split_comma_free|].
      intros part Hpart. simpl. split; [apply strip_idemp|by apply strip_comma_free].
  - intros keys parts Hne Hparts Hall. unfold selected_agents. rewrite Hall.
    by rewrite split_comma_strip, split_join_comma.
Qed.

Lemma selection_splits_and_trims_witness :
  selected_agents [py "X"] (join_comma [py " mario "; py "luigi"; py ""])
  = strip <$> [py " mario "; py "luigi"; py ""].
Proof.
  apply (proj2 (proj2 (proj2 (proj2 selection_splits_and_trims))) [py "X"]
           [py " mario "; py "luigi"; py ""]).
  - done.
  - repeat (apply Forall_cons_2;
              [apply (bool_decide_unpack _); vm_compute; exact I|]).
    apply Forall_nil_2.
  - reflexivity.
Defined.

(** ** What each task prints *)

(** The texts that task [j] has written to standard output, in order. *)
Definition worker_output (j : nat) (s : Dispatch) : list pystr :=
  snd <$> filter (λ x, x.1 = WorkerThread j) (stdout s).

(** What the task of an agent called [agent_name] has printed when it is in
    stage [st]: nothing; the name line and the chunks received so far; the
    name line, the chunks, and the line that ends the turn. *)
Definition task_printed (agent_name : pystr) (st : stage) (printed : list pystr) : Prop :=
  match st with
  | Queued => printed = []
  | Streaming full _ _ =>
      ∃ chunks, printed = (nl ++ agent_name ++ py ": ") :: chunks
                ∧ concat chunks = full
  | Finished =>
      ∃ chunks last,
        printed = (nl ++ agent_name ++ py ": ") :: chunks ++ [last]
        ∧ (last = nl
           ∨ ∃ e, last = py "Error from " ++ agent_name ++ py ": " ++ exn_str e ++ nl)
  end.

(** What one step of a task prints. *)
Inductive task_prints (agent_name : pystr) : stage → stage → list pystr → Prop :=
  | prints_start_stream chunks interrupted :
      task_prints agent_name Queued (Streaming [] chunks interrupted)
        [nl ++ agent_name ++ py ": "]
  | prints_start_error e :
      task_prints agent_name Queued Finished
        [nl ++ agent_name ++ py ": ";
         py "Error from " ++ agent_name ++ py ": " ++ exn_str e ++ nl]
  | prints_chunk full content rest interrupted :
      task_prints agent_name (Streaming full (content :: rest) interrupted)
        (Streaming (full ++ content) rest interrupted) [content]
  | prints_reply full :
      task_prints agent_name (Streaming full [] None) Finished [nl]
  | prints_error full e :
      task_prints agent_name (Streaming full [] (Some e)) Finished
        [py "Error from " ++ agent_name ++ py ": " ++ exn_str e ++ nl].

Definition output_inv (reg0 : gmap pystr Agent) (s : Dispatch) : Prop :=
  (∀ k a0, reg0 !! k = Some a0 → ∃ h, registry s !! k = Some (extended a0 h))
  ∧ (∀ j f, futures s !! j = Some f →
       ∃ a0, reg0 !! fut_agent f = Some a0
             ∧ task_printed (name a0) (fut_stage f) (worker_output j s))
  ∧ (∀ j, length (futures s) ≤ j → worker_output j s = []).

Section output.
Implicit Types (s : Dispatch) (f : Future) (agent : Agent) (st : stage).

Lemma task_start_prints outcome message cs agent :
  ∃ st' agent' out,
    task_start outcome message cs (agent, []) = (inr st', (agent', out))
    ∧ task_prints (name agent) Queued st' out.
Proof.
  unfold task_start, try_except, report_error.
  unfold mbind, Py_bind, bind, add_message, modify, get, print, lift, ollama_chat, ret.
  simpl. destruct (py_get cs _ _) as [e|t]; simpl.
  { do 3 eexists. split; [done|]. apply prints_start_error. }
  destruct outcome as [e|chunks term]; simpl; do 3 eexists; (split; [done|]).
  - apply prints_start_error.
  - apply prints_start_stream.
Qed.

Lemma task_continue_prints full chunks term agent :
  ∃ st' agent' out,
    task_continue (Streaming full chunks term) (agent, []) = (inr st', (agent', out))
    ∧ task_prints (name agent) (Streaming full chunks term) st' out.
Proof.
  unfold task_continue, report_error.
  unfold mbind, Py_bind, bind, add_message, modify, get, print, ret.
  destruct chunks as [|c chunks]; [destruct term|]; simpl;
    do 3 eexists; (split; [done|]); constructor.
Qed.

Lemma exec_worker_prints message cs names a s s' :
  a ≠ MainStep → exec message cs names a s = Some s' →
  ∃ j f agent st' out,
    futures s !! j = Some f
    ∧ registry s !! fut_agent f = Some agent
    ∧ task_prints (name agent) (fut_stage f) st' out
    ∧ stdout s' = stdout s ++ map (pair (WorkerThread j)) out
    ∧ futures s' = <[j := {| fut_agent := fut_agent f; fut_stage := st' |}]> (futures s).
Proof.
  intros Ha. destruct a as [|outcome|j]; [done| |]; simpl.
  - destruct (first_queued (futures s)) as [j|] eqn:Hq; [|done]. simpl.
    case_decide as Hcap; [|done]. apply first_queued_spec in Hq as (f & Hf & Hq).
    unfold worker_step. rewrite Hf. simpl.
    destruct (registry s !! fut_agent f) as [agent|] eqn:Hagent; [|done]. simpl.
    destruct (task_start_prints outcome message cs agent)
      as (st' & agent' & out & -> & Hpr).
    intros [= <-]. exists j, f, agent, st', out. simpl.
    assert (fut_stage f = Queued) as ->.
    { unfold is_queued in Hq. by destruct (fut_stage f). }
    done.
  - destruct (futures s !! j) as [f|] eqn:Hf; [|done]. simpl.
    destruct (is_running f) eqn:Hr; [|done].
    unfold worker_step. rewrite Hf. simpl.
    destruct (registry s !! fut_agent f) as [agent|] eqn:Hagent; [|done]. simpl.
    unfold is_running in Hr.
    destruct (fut_stage f) as [|full chunks term|] eqn:Hstage; try done.
    destruct (task_continue_prints full chunks term agent)
      as (st' & agent' & out & -> & Hpr).
    intros [= <-]. exists j, f, agent, st', out. simpl. by rewrite Hstage.
Qed.

Lemma worker_output_app j s (more : list (thread * pystr)) r fs p :
  worker_output j {| registry := r; stdout := stdout s ++ more; futures := fs; pc := p |}
  = worker_output j s ++ (snd <$> filter (λ x, x.1 = WorkerThread j) more).
Proof. unfold worker_output. simpl. by rewrite filter_app, fmap_app. Qed.

Lemma filter_tagged j j' (out : list pystr) :
  snd <$> filter (λ x : thread * pystr, x.1 = WorkerThread j)
            (map (pair (WorkerThread j')) out)
  = if decide (j = j') then out else [].
Proof.
  destruct (decide (j = j')) as [->|Hne].
  - induction out as [|o out IH]; [done|]. simpl.
    rewrite filter_cons_True by done. by rewrite fmap_cons, IH.
  - induction out as [|o out IH]; [done|]. simpl.
    rewrite filter_cons_False; [done|]. simpl. congruence.
Qed.

Lemma worker_output_stdout j s s' more :
  stdout s' = stdout s ++ more →
  worker_output j s'
  = worker_output j s ++ (snd <$> filter (λ x, x.1 = WorkerThread j) more).
Proof. unfold worker_output. intros ->. by rewrite filter_app, fmap_app. Qed.

Lemma task_printed_step agent_name st st' out printed :
  task_prints agent_name st st' out →
  task_printed agent_name st printed →
  task_printed agent_name st' (printed ++ out).
Proof.
  intros Hpr Hp. inversion Hpr as [chunks term|e|full c rest term|full|full e]; subst;
    unfold task_printed in *.
  - subst printed. by exists [].
  - subst printed.
    exists [], (py "Error from " ++ agent_name ++ py ": " ++ exn_str e ++ nl).
    split; [done|]. right. by exists e.
  - destruct Hp as (chunks & -> & Hfull). exists (chunks ++ [c]).
    split; [by rewrite <- (app_comm_cons _ _ _)|].
    rewrite concat_app, Hfull. cbn [concat]. by rewrite (app_nil_r c).
  - destruct Hp as (chunks & -> & Hfull). exists chunks, nl. split; [done|]. by left.
  - destruct Hp as (chunks & -> & Hfull).
    exists chunks, (py "Error from " ++ agent_name ++ py ": " ++ exn_str e ++ nl).
    split; [done|]. right. by exists e.
Qed.

Lemma main_step_stdout names s s' :
  main_step names s = Some s' →
  ∃ more, stdout s' = stdout s ++ map (pair MainThread) more.
Proof.
  unfold main_step. destruct (pc s) as [|[|n todo]|i|].
  - intros [= <-]. by eexists [_].
  - intros [= <-]. exists []. simpl. by rewrite (app_nil_r (stdout s)).
  - destruct (registry s !! n); intros [= <-]; simpl.
    + exists []. simpl. by rewrite (app_nil_r (stdout s)).
    + by eexists [_].
  - destruct (futures s !! i) as [f|]; [destruct (is_finished f)|];
      intros [= <-]; exists []; simpl; by rewrite (app_nil_r (stdout s)).
  - done.
Qed.

Lemma filter_main_tagged j (out : list pystr) :
  snd <$> filter (λ x : thread * pystr, x.1 = WorkerThread j) (map (pair MainThread) out)
  = [].
Proof.
  induction out as [|o out IH]; [done|]. simpl. by rewrite filter_cons_False.
Qed.

Lemma exec_output_inv reg0 message cs names a s s' :
  dispatch_inv reg0 names s →
  exec message cs names a s = Some s' →
  output_inv reg0 s → output_inv reg0 s'.
Proof.
  intros Hdinv Hexec (Hreg & Hout & Hnone).
  split; [by eapply exec_extended|].
  assert (a = MainStep ∨ a ≠ MainStep) as [->|Ha]
    by (destruct a; [by left|by right|by right]).
  - (* the main thread *)
    simpl in Hexec.
    destruct (main_step_stdout _ _ _ Hexec) as [more Hstd].
    assert (∀ j, worker_output j s' = worker_output j s) as Hsame.
    { intros j. rewrite (worker_output_stdout _ _ _ _ Hstd), filter_main_tagged.
      apply app_nil_r. }
    pose proof Hexec as Hstep.
    apply main_step_futures in Hexec as [Hr [Hf|[n Hf]]].
    + split.
      * intros j f. rewrite Hf, Hsame. apply Hout.
      * intros j. rewrite Hf, Hsame. apply Hnone.
    + assert (is_Some (reg0 !! n)) as [a0 Ha0].
      { pose proof (exec_dispatch_inv reg0 message cs names MainStep s s' Hstep Hdinv)
          as Hdinv'.
        eapply (future_registered reg0 names s' (length (futures s))) in Hdinv';
          [|rewrite Hf; apply list_lookup_middle; done].
        simpl in Hdinv'. destruct Hdinv as [Hdom _]. apply Hdom. by rewrite <- Hr. }
      split.
      * intros j f. rewrite Hf, Hsame. intros Hj.
        apply lookup_app_Some in Hj as [Hj|[Hge Hj]]; [by apply Hout|].
        apply list_lookup_singleton_Some in Hj as [Hj0 <-]. simpl.
        exists a0. split; [done|]. apply Hnone. lia.
      * intros j. rewrite Hf, Hsame, length_app. simpl. intros Hj. apply Hnone. lia.
  - (* a worker *)
    destruct (exec_worker_prints _ _ _ _ _ _ Ha Hexec)
      as (j & f & agent & st' & out & Hf & Hagent & Hpr & Hstd & Hfut).
    assert (∀ i, worker_output i s'
                 = worker_output i s ++ (if decide (i = j) then out else [])) as Hsame.
    { intros i. by rewrite (worker_output_stdout _ _ _ _ Hstd), filter_tagged. }
    split.
    + intros i f' Hi. rewrite Hfut in Hi. rewrite Hsame.
      destruct (decide (i = j)) as [->|Hne].
      * rewrite list_lookup_insert_eq in Hi by by eapply lookup_lt_Some.
        injection Hi as <-. simpl.
        destruct (Hout _ _ Hf) as (a0 & Ha0 & Hp). exists a0. split; [done|].
        destruct (Hreg _ _ Ha0) as [h Hh]. rewrite Hh in Hagent.
        injection Hagent as <-. by eapply task_printed_step.
      * rewrite list_lookup_insert_ne in Hi by done.
        rewrite (app_nil_r (worker_output i s)). by apply Hout.
    + intros i. rewrite Hfut, length_insert, Hsame. intros Hi.
      rewrite decide_False; [rewrite (app_nil_r (worker_output i s)); by apply Hnone|].
      apply lookup_lt_Some in Hf. lia.
Qed.
End output.

(** X16: the turns of a batch may interleave on standard output, but what
    each task itself has printed is always coherent: nothing before it
    starts; then the line with its agent's name followed by the chunks it
    has received, in order, whose concatenation is the response accumulated
    so far; and, once it has finished, these followed by one last line, the
    newline or the agent's error. *)
Theorem task_output_is_coherent self message agent_names schedule s j f :
  chat_with_agents self message agent_names schedule = Some s →
  futures s !! j = Some f →
  ∃ a0, agents self !! fut_agent f = Some a0
        ∧ task_printed (name a0) (fut_stage f) (worker_output j s).
Proof.
  intros Hrun Hf.
  assert (output_inv (agents self) s) as (_ & Hout & _); [|by apply Hout].
  unfold chat_with_agents in Hrun.
  destruct (chat_settings_of (config self)) as [|cs]; [done|].
  assert (output_inv (agents self) (enter self)) as Hstart.
  { split; [|split]; [|done|done].
    intros k a0 Hk. exists []. by rewrite extended_nil. }
  pose proof (enter_dispatch_inv self agent_names) as Hdinv.
  revert Hrun Hstart Hdinv. generalize (enter self). clear Hf.
  induction schedule as [|a schedule IH]; intros s0; simpl.
  - by intros [= <-].
  - destruct (exec message cs agent_names a s0) as [s1|] eqn:E; [|done]. simpl.
    intros Hrun Hinv Hdinv. apply (IH s1 Hrun).
    + by eapply exec_output_inv.
    + by eapply exec_dispatch_inv.
Qed.

Lemma task_output_is_coherent_witness :
  ∃ s f, chat_with_agents one_agent (py "hello") [py "X"; py "X"] overlapping_schedule
         = Some s
         ∧ futures s !! 1 = Some f
         ∧ ∃ a0, agents one_agent !! fut_agent f = Some a0
                 ∧ task_printed (name a0) (fut_stage f) (worker_output 1 s).
Proof.
  destruct (chat_with_agents one_agent (py "hello") [py "X"; py "X"]
              overlapping_schedule) as [s|] eqn:E; [|by vm_compute in E].
  destruct (futures s !! 1) as [f|] eqn:Hf;
    [|vm_compute in E; injection E as <-; by vm_compute in Hf].
  exists s, f. split; [done|]. split; [done|].
  apply (task_output_is_coherent one_agent (py "hello") [py "X"; py "X"]
           overlapping_schedule s 1 f E Hf).
Defined.
